(** * PR review finder ([plugins/pr-review-finder/src/main.py])

    A shallow embedding of the plugin and the properties its
    specification states about it.

    Python strings are sequences of Unicode code points, so a [str] is a
    list of code points.  The regular expressions of the program are run
    by a model of the [re] engine: patterns are parsed from their source
    text, compiled to the single-character opcodes of [sre], and matched
    by greedy backtracking as [sre] does.  Console output, [sys.exit] and
    uncaught exceptions are threaded through a writer/error monad. *)

From Stdlib Require Import Ascii String DecimalString.
From Stdlib Require Import List NArith ZArith Bool Lia Permutation Sorted.
Import ListNotations.

Set Implicit Arguments.
Set Warnings "-register-all".

(** ** Strings *)

Definition char := N.
Definition str := list char.

(** The code points of a literal written in Basic Latin. *)
Definition lit (s : string) : str := map N_of_ascii (list_ascii_of_string s).

Definition char_eqb (a b : char) : bool := N.eqb a b.

Fixpoint str_eqb (a b : str) : bool :=
  match a, b with
  | [], [] => true
  | x :: a', y :: b' => char_eqb x y && str_eqb a' b'
  | _, _ => false
  end.

(** [a < b] on strings: Python compares code point by code point. *)
Fixpoint str_ltb (a b : str) : bool :=
  match a, b with
  | _, [] => false
  | [], _ :: _ => true
  | x :: a', y :: b' => N.ltb x y || (N.eqb x y && str_ltb a' b')
  end.

Fixpoint starts_with (p s : str) : bool :=
  match p, s with
  | [], _ => true
  | x :: p', y :: s' => char_eqb x y && starts_with p' s'
  | _ :: _, [] => false
  end.

(** [p in s] for two strings: [p] occurs in [s] as a substring. *)
Fixpoint str_in (p s : str) : bool :=
  starts_with p s ||
  match s with
  | [] => false
  | _ :: s' => str_in p s'
  end.

(** [str(n)] for an integer. *)
Definition str_of_int (z : Z) : str := lit (NilEmpty.string_of_int (Z.to_int z)).

(** ** The Unicode character database

    [str.lower] and the [re] engine consult the Unicode character
    database compiled into the interpreter.  The rows the program's own
    literals fall in (the Basic Latin block and U+1F440 EYES) are written
    out below; the rest of the database, which changes from one Unicode
    version to the next, is a parameter of the development. *)

Class unicode_db := {
  db_tolower : char -> char;            (* simple lowercase mapping *)
  db_toupper : char -> char;            (* simple uppercase mapping *)
  db_tolower_full : char -> str;        (* full lowercase mapping *)
  db_iscased : char -> bool;            (* property Cased *)
  db_iscaseignorable : char -> bool;    (* property Case_Ignorable *)
  db_isdecimal : char -> bool;          (* general category Nd *)
  db_extra_cases : char -> list char    (* [re._casefix._EXTRA_CASES] *)
}.

Definition EYES : char := 128064%N.

Definition is_ascii (c : char) : bool := (c <? 128)%N.
Definition is_ascii_upper (c : char) : bool := ((65 <=? c) && (c <=? 90))%N.
Definition is_ascii_lower (c : char) : bool := ((97 <=? c) && (c <=? 122))%N.

Definition ascii_tolower (c : char) : char :=
  if is_ascii_upper c then (c + 32)%N else c.
Definition ascii_toupper (c : char) : char :=
  if is_ascii_lower c then (c - 32)%N else c.

(** The rows written out here. *)
Definition tabled (c : char) : bool := is_ascii c || (c =? EYES)%N.

Section Unicode.

Context {db : unicode_db}.

Definition Py_UNICODE_TOLOWER (c : char) : char :=
  if is_ascii c then ascii_tolower c
  else if (c =? EYES)%N then c else db_tolower c.

Definition Py_UNICODE_TOUPPER (c : char) : char :=
  if is_ascii c then ascii_toupper c
  else if (c =? EYES)%N then c else db_toupper c.

Definition PyUnicode_ToLowerFull (c : char) : str :=
  if is_ascii c then [ascii_tolower c]
  else if (c =? EYES)%N then [c] else db_tolower_full c.

Definition PyUnicode_IsCased (c : char) : bool :=
  if is_ascii c then is_ascii_upper c || is_ascii_lower c
  else if (c =? EYES)%N then false else db_iscased c.

Definition PyUnicode_IsCaseIgnorable (c : char) : bool :=
  if is_ascii c then
    (c =? 39)%N || (c =? 46)%N || (c =? 58)%N || (c =? 94)%N || (c =? 96)%N
  else if (c =? EYES)%N then false else db_iscaseignorable c.

Definition Py_UNICODE_ISDECIMAL (c : char) : bool :=
  if is_ascii c then ((48 <=? c) && (c <=? 57))%N
  else if (c =? EYES)%N then false else db_isdecimal c.

(** [_EXTRA_CASES]: lowercase characters that share their uppercase
    with the key. *)
Definition EXTRA_CASES (c : char) : list char :=
  if is_ascii c then
    if (c =? 105)%N then [305%N]          (* i : dotless i *)
    else if (c =? 115)%N then [383%N]     (* s : long s *)
    else []
  else if (c =? EYES)%N then [] else db_extra_cases c.

(** *** [str.lower] *)

(** The first character of [s] that is not case-ignorable. *)
Fixpoint skip_case_ignorable (s : str) : option char :=
  match s with
  | [] => None
  | c :: s' => if PyUnicode_IsCaseIgnorable c then skip_case_ignorable s' else Some c
  end.

(** A capital sigma is lowered to the final form when a cased character
    precedes it and none follows, case-ignorable characters apart.
    [before] holds the characters to the left, nearest first. *)
Definition handle_capital_sigma (before after : str) : char :=
  let final_sigma :=
    match skip_case_ignorable before with
    | Some c =>
        PyUnicode_IsCased c &&
        match skip_case_ignorable after with
        | Some d => negb (PyUnicode_IsCased d)
        | None => true
        end
    | None => false
    end in
  if final_sigma then 962%N else 963%N.

Definition lower_ucs4 (before : str) (c : char) (after : str) : str :=
  if (c =? 931)%N then [handle_capital_sigma before after]
  else PyUnicode_ToLowerFull c.

Fixpoint do_lower (before s : str) : str :=
  match s with
  | [] => []
  | c :: after => lower_ucs4 before c after ++ do_lower (c :: before) after
  end.

(** [s.lower()]; a string of Basic Latin takes the fast path. *)
Definition lower (s : str) : str :=
  if forallb is_ascii s then map ascii_tolower s else do_lower [] s.


End Unicode.

(** ** The [re] module

    The fragment of pattern syntax modelled: literal characters, [.],
    escaped punctuation, [\d], the negated one-character set [[^c]], and
    the greedy quantifiers [*], [+] and [?] on one of these.  It covers
    every pattern written in the program.  A pattern outside the fragment
    (a group, an alternation, an anchor, a counted, lazy or possessive
    repeat, a general set, or a pattern Python rejects) parses to
    [None]. *)

(** *** Parsing ([re._parser]) *)

Inductive atom :=
| LITERAL (c : char)
| NOT_LITERAL (c : char)
| ANY
| CATEGORY_DIGIT.

Inductive item :=
| ONE (a : atom)
| MAX_REPEAT (lo : nat) (hi : option nat) (a : atom).

Definition SPECIAL_CHARS : str := lit ".\[{()*+?^$|".

Definition is_ascii_alnum (c : char) : bool :=
  is_ascii_upper c || is_ascii_lower c || ((48 <=? c) && (c <=? 57))%N.

Definition char_in (c : char) (s : list char) : bool := existsb (char_eqb c) s.

(** One atom at the head of the pattern, and what follows it. *)
Definition parse_atom (s : str) : option (atom * str) :=
  match s with
  | [] => None
  | c :: s1 =>
      if (c =? 92)%N then                       (* backslash *)
        match s1 with
        | [] => None
        | e :: s2 =>
            if (e =? 100)%N then Some (CATEGORY_DIGIT, s2)
            else if is_ascii_alnum e then None
            else Some (LITERAL e, s2)
        end
      else if (c =? 46)%N then Some (ANY, s1)
      else if (c =? 91)%N then                  (* [^x] *)
        match s1 with
        | n :: x :: r :: s2 =>
            if (n =? 94)%N && (r =? 93)%N && negb (x =? 93)%N && negb (x =? 92)%N
            then Some (NOT_LITERAL x, s2) else None
        | _ => None
        end
      else if char_in c SPECIAL_CHARS then None
      else Some (LITERAL c, s1)
  end.

(** The quantifier at the head of the pattern, if there is one. *)
Definition parse_repeat (s : str) : option (nat * option nat * str) :=
  match s with
  | q :: s1 =>
      if (q =? 63)%N then Some (0, Some 1, s1)          (* ? *)
      else if (q =? 42)%N then Some (0, None, s1)       (* * *)
      else if (q =? 43)%N then Some (1, None, s1)       (* + *)
      else None
  | [] => None
  end.

Fixpoint parse_items (fuel : nat) (s : str) : option (list item) :=
  match s with
  | [] => Some []
  | _ :: _ =>
      match fuel with
      | O => None
      | S fuel' =>
          match parse_atom s with
          | None => None
          | Some (a, s1) =>
              let '(it, s2) :=
                match parse_repeat s1 with
                | Some (lo, hi, s2) => (MAX_REPEAT lo hi a, s2)
                | None => (ONE a, s1)
                end in
              match parse_items fuel' s2 with
              | Some its => Some (it :: its)
              | None => None
              end
          end
      end
  end.

Definition parse (pattern : str) : option (list item) :=
  parse_items (List.length pattern) pattern.

(** *** Compilation ([re._compiler]) and matching ([_sre]) *)

(** The opcodes that consume one character. *)
Inductive charop :=
| OP_LITERAL (c : char)
| OP_NOT_LITERAL (c : char)
| OP_ANY
| OP_LITERAL_UNI_IGNORE (lo : char)
| OP_NOT_LITERAL_UNI_IGNORE (lo : char)
| OP_IN_UNI_IGNORE (negate : bool) (set : list char)
| OP_IN_DIGIT.

Inductive op :=
| OP_ONE (o : charop)
| OP_REPEAT_ONE (lo : nat) (hi : option nat) (o : charop).

Definition code := list op.

Inductive flags := NOFLAG | IGNORECASE.

Section Regex.

Context {db : unicode_db}.

Definition unicode_iscased (c : char) : bool :=
  negb (c =? Py_UNICODE_TOLOWER c)%N || negb (c =? Py_UNICODE_TOUPPER c)%N.

Definition compile_literal (fl : flags) (negate : bool) (c : char) : charop :=
  let plain := if negate then OP_NOT_LITERAL c else OP_LITERAL c in
  match fl with
  | NOFLAG => plain
  | IGNORECASE =>
      if negb (unicode_iscased c) then plain
      else
        let lo := Py_UNICODE_TOLOWER c in
        match EXTRA_CASES lo with
        | [] => if negate then OP_NOT_LITERAL_UNI_IGNORE lo else OP_LITERAL_UNI_IGNORE lo
        | fixes => OP_IN_UNI_IGNORE negate (lo :: fixes)
        end
  end.

Definition compile_atom (fl : flags) (a : atom) : charop :=
  match a with
  | LITERAL c => compile_literal fl false c
  | NOT_LITERAL c => compile_literal fl true c
  | ANY => OP_ANY
  | CATEGORY_DIGIT => OP_IN_DIGIT
  end.

Definition compile_item (fl : flags) (it : item) : op :=
  match it with
  | ONE a => OP_ONE (compile_atom fl a)
  | MAX_REPEAT lo hi a => OP_REPEAT_ONE lo hi (compile_atom fl a)
  end.

(** [re.compile(pattern, flags)] *)
Definition re_compile (pattern : str) (fl : flags) : option code :=
  option_map (map (compile_item fl)) (parse pattern).

(** Does the opcode accept the character? *)
Definition charop_accepts (o : charop) (ch : char) : bool :=
  match o with
  | OP_LITERAL c => (ch =? c)%N
  | OP_NOT_LITERAL c => negb (ch =? c)%N
  | OP_ANY => negb (ch =? 10)%N
  | OP_LITERAL_UNI_IGNORE lo => (Py_UNICODE_TOLOWER ch =? lo)%N
  | OP_NOT_LITERAL_UNI_IGNORE lo => negb (Py_UNICODE_TOLOWER ch =? lo)%N
  | OP_IN_UNI_IGNORE negate set => xorb negate (char_in (Py_UNICODE_TOLOWER ch) set)
  | OP_IN_DIGIT => Py_UNICODE_ISDECIMAL ch
  end.

(** [SRE(count)]: how many leading characters the opcode accepts, up to
    the bound. *)
Fixpoint sre_count (o : charop) (hi : option nat) (s : str) : nat :=
  match s with
  | [] => 0
  | ch :: s' =>
      match hi with
      | Some 0 => 0
      | _ =>
          if charop_accepts o ch
          then S (sre_count o (option_map pred hi) s')
          else 0
      end
  end.

(** The backtracking of a repeat: try to match the rest of the code
    after [k] characters, then after one fewer, down to [lo]. *)
Fixpoint sre_back (rest : nat -> option nat) (lo k : nat) : option nat :=
  match rest k with
  | Some l => Some (k + l)
  | None =>
      match k with
      | O => None
      | S k' => if lo <=? k' then sre_back rest lo k' else None
      end
  end.

(** [SRE(match)]: match the code at the head of [s]; the length of the
    match.  A repeat takes as many characters as it can and gives them
    back one at a time until the rest of the code matches. *)
Fixpoint sre_match (c : code) (s : str) : option nat :=
  match c with
  | [] => Some 0
  | OP_ONE o :: c' =>
      match s with
      | ch :: s' =>
          if charop_accepts o ch then option_map S (sre_match c' s') else None
      | [] => None
      end
  | OP_REPEAT_ONE lo hi o :: c' =>
      let n := sre_count o hi s in
      if n <? lo then None
      else sre_back (fun k => sre_match c' (skipn k s)) lo n
  end.

(** [SRE(search)]: the leftmost position at which the code matches, and
    the length of the match there. *)
Fixpoint sre_search (c : code) (s : str) : option (nat * nat) :=
  match sre_match c s with
  | Some l => Some (0, l)
  | None =>
      match s with
      | [] => None
      | _ :: s' =>
          match sre_search c s' with
          | Some (i, l) => Some (S i, l)
          | None => None
          end
      end
  end.

(** The scan of [finditer]: after a match the scan resumes at its end,
    one character further when the match is empty (in this fragment an
    empty match leaves no other match at its position); [skip] counts
    the characters of the last match still to step over and [pos] is the
    index of the head of [s]. *)
Fixpoint sre_scan (c : code) (skip pos : nat) (s : str) : list (nat * str) :=
  match skip with
  | S skip' =>
      match s with
      | [] => []
      | _ :: s' => sre_scan c skip' (S pos) s'
      end
  | O =>
      match sre_match c s with
      | Some l =>
          (pos, firstn l s) ::
          match s with
          | [] => []
          | _ :: s' => sre_scan c (pred l) (S pos) s'
          end
      | None =>
          match s with
          | [] => []
          | _ :: s' => sre_scan c 0 (S pos) s'
          end
      end
  end.

(** [re.search(pattern, s, flags)] is not [None].  The answer here is
    [None] for a pattern the parser above does not read: one that [re]
    rejects, or one outside the fragment, of which the model says
    nothing. *)
Definition re_search (pattern : str) (s : str) (fl : flags) : option bool :=
  match re_compile pattern fl with
  | Some c => Some (match sre_search c s with Some _ => true | None => false end)
  | None => None
  end.

(** [re.findall(pattern, s)] for a pattern without groups. *)
Definition re_findall (pattern : str) (s : str) : option (list str) :=
  match re_compile pattern NOFLAG with
  | Some c => Some (map snd (sre_scan c 0 0 s))
  | None => None
  end.

End Regex.

(** ** Python values, dictionaries and the process monad *)

(** The values [yaml.safe_load] produces and [json.dumps] prints.  A
    float is kept as mantissa and binary exponent.  Dictionaries keep
    their insertion order; mapping keys are strings. *)
Inductive pyval :=
| PNone
| PBool (b : bool)
| PInt (z : Z)
| PFloat (m e : Z)
| PStr (s : str)
| PList (l : list pyval)
| PDict (d : list (str * pyval)).

Section Dict.

Variable V : Type.

Definition dict := list (str * V).

(** [d.get(k)] *)
Fixpoint dict_get (d : dict) (k : str) : option V :=
  match d with
  | [] => None
  | (k', v) :: d' => if str_eqb k k' then Some v else dict_get d' k
  end.

(** [d[k] = v]: an existing key keeps its place. *)
Fixpoint dict_set (d : dict) (k : str) (v : V) : dict :=
  match d with
  | [] => [(k, v)]
  | (k', v') :: d' =>
      if str_eqb k k' then (k', v) :: d' else (k', v') :: dict_set d' k v
  end.

Definition dict_keys (d : dict) : list str := map fst d.

End Dict.

(** The channel registry, [dict[str, str]]: identifier to display name. *)
Definition registry := dict str.

Definition as_str (v : pyval) : option str :=
  match v with PStr s => Some s | _ => None end.

Fixpoint as_str_items (d : list (str * pyval)) : option registry :=
  match d with
  | [] => Some []
  | (k, v) :: d' =>
      match as_str v, as_str_items d' with
      | Some s, Some r => Some ((k, s) :: r)
      | _, _ => None
      end
  end.

(** The registry held by a value, when the value is one. *)
Definition as_registry (v : pyval) : option registry :=
  match v with PDict d => as_str_items d | _ => None end.

Definition of_registry (r : registry) : pyval :=
  PDict (map (fun kv => (fst kv, PStr (snd kv))) r).

Inductive exn := YAMLError | AttributeError | OverflowError.

(** How a computation ends: with a value, in [sys.exit], in an uncaught
    exception, or on a value the source's type annotations exclude. *)
Inductive res (A : Type) :=
| Ok (a : A)
| Exit (status : Z)
| Raise (e : exn)
| Untyped.

Arguments Ok {A} a.
Arguments Exit {A} status.
Arguments Raise {A} e.
Arguments Untyped {A}.

(** What the process writes: a [print] to standard output or standard
    error, the [json.dumps] of a value printed to standard output, or the
    help text of the argument parser. *)
Inductive event :=
| Stdout (line : str)
| Stderr (line : str)
| StdoutJson (v : pyval)
| PrintHelp.

Definition M (A : Type) : Type := (list event * res A)%type.

Definition ret {A} (a : A) : M A := ([], Ok a).

Definition bind {A B} (m : M A) (f : A -> M B) : M B :=
  match m with
  | (out, Ok a) => let '(out', r) := f a in (out ++ out', r)
  | (out, Exit n) => (out, Exit n)
  | (out, Raise e) => (out, Raise e)
  | (out, Untyped) => (out, Untyped)
  end.

Notation "x <- m ;; k" := (bind m (fun x => k))
  (at level 61, m at next level, right associativity).
Notation "m ;;; k" := (bind m (fun _ => k))
  (at level 61, right associativity).

Definition print (s : str) : M unit := ([Stdout s], Ok tt).
Definition eprint (s : str) : M unit := ([Stderr s], Ok tt).
Definition print_json (v : pyval) : M unit := ([StdoutJson v], Ok tt).
Definition sys_exit {A} (n : Z) : M A := ([], Exit n).
Definition raise {A} (e : exn) : M A := ([], Raise e).
Definition untyped {A} : M A := ([], Untyped).

(** The exit status of the process: 0 at the end of [main], the
    argument of [sys.exit], 1 on an uncaught exception. *)
Definition exit_status {A} (m : M A) : option Z :=
  match snd m with
  | Ok _ => Some 0%Z
  | Exit n => Some n
  | Raise _ => Some 1%Z
  | Untyped => None
  end.


(** ** The world the plugin runs in *)

(** The channel file as [load_channels] finds it: absent, present but
    rejected by [yaml.safe_load], or present with the document it loads
    to. *)
Inductive config_file :=
| Absent
| Malformed
| Document (data : pyval).

Record world := {
  channels_file : str;                      (* [str(plugin_dir / "channels.yaml")] *)
  config : config_file;
  cutoff_clock : Z -> option (Z * Z)        (* [(now() - timedelta(days)).timestamp()];
                                               [None] when the date overflows *)
}.

(** ** The program *)

Definition NL : str := [10%N].

(** PR review request patterns, as the source writes them. *)
Definition REVIEW_PATTERNS : list str :=
  [ [EYES];
    lit ":eyes:";
    lit "eyes on";
    lit "review";
    lit "please.*look";
    lit "look.*at";
    lit "need.*review";
    lit "can.*someone";
    lit "anyone.*review";
    lit "could.*get";
    lit "would.*appreciate";
    lit "help.*review";
    lit "waiting.*review";
    lit "blocked.*review";
    lit "ready.*review";
    lit "PTAL";
    lit "lgtm\?";
    lit "thoughts\?" ].

(** GitHub PR URL pattern *)
Definition GITHUB_PR_PATTERN : str :=
  lit "https?://github\.com/[^/]+/[^/]+/pull/\d+".

Definition DEFAULT_REPO_PATTERN : str := lit "github.com/tatari-tv/.*/pull/".

(** Truth value of an optional string: [None] and the empty string are
    false. *)
Definition truthy (o : option str) : bool :=
  match o with
  | Some (_ :: _) => true
  | _ => false
  end.

(** [o or default] *)
Definition or_default (o : option str) (default : str) : str :=
  match o with
  | Some (c :: s) => c :: s
  | _ => default
  end.

(** [[x for x in l if f(x)]], where evaluating [f] may raise. *)
Fixpoint comprehension_if {A} (f : A -> option bool) (l : list A) : option (list A) :=
  match l with
  | [] => Some []
  | x :: l' =>
      match f x with
      | None => None
      | Some b =>
          match comprehension_if f l' with
          | None => None
          | Some r => Some (if b then x :: r else r)
          end
      end
  end.

(** [sorted(items, key=lambda x: x[1])]: stable, by display name. *)
Fixpoint insert_by_name (x : str * str) (l : list (str * str)) : list (str * str) :=
  match l with
  | [] => [x]
  | y :: l' => if str_ltb (snd y) (snd x) then y :: insert_by_name x l' else x :: l
  end.

Definition sorted_by_name (l : list (str * str)) : list (str * str) :=
  fold_right insert_by_name [] l.

Section Program.

Context {db : unicode_db}.

(** Load channel mappings from channels.yaml. *)
Definition load_channels (w : world) : M pyval :=
  match config w with
  | Absent =>
      eprint (lit "Error: " ++ channels_file w ++ lit " not found") ;;;
      sys_exit 1
  | Malformed => raise YAMLError
  | Document (PDict data) =>
      ret (match dict_get data (lit "channels") with
           | Some v => v
           | None => PDict []
           end)
  | Document _ => raise AttributeError
  end.

(** The registry [load_channels] returns, as the callers use it. *)
Definition load_registry (w : world) : M registry :=
  v <- load_channels w ;;
  match as_registry v with
  | Some r => ret r
  | None => untyped
  end.

(** The loop of [is_review_request], with the patterns it has searched
    for when it returns. *)
Fixpoint review_loop (patterns : list str) (text_lower : str) : list str * option bool :=
  match patterns with
  | [] => ([], Some false)
  | pattern :: rest =>
      match re_search pattern text_lower IGNORECASE with
      | None => ([pattern], None)
      | Some true => ([pattern], Some true)
      | Some false =>
          let '(searched, r) := review_loop rest text_lower in
          (pattern :: searched, r)
      end
  end.

(** Check if message text looks like a PR review request. *)
Definition is_review_request (text : str) : option bool :=
  let text_lower := lower text in
  snd (review_loop REVIEW_PATTERNS text_lower).

Definition patterns_searched (text : str) : list str :=
  fst (review_loop REVIEW_PATTERNS (lower text)).

(** Extract GitHub PR URLs from message text.  The caller's pattern may
    use any syntax of [re]: [search p u] stands for [re.search(p, u)]
    finding a match, and is [None] when the call raises. *)
Definition extract_pr_urls_with (search : str -> str -> option bool)
    (text : str) (repo_pattern : option str) : option (list str) :=
  match re_findall GITHUB_PR_PATTERN text with
  | None => None
  | Some urls =>
      match repo_pattern with
      | Some (c :: p) => comprehension_if (fun u => search (c :: p) u) urls
      | _ => Some urls
      end
  end.

(** The same with the caller's pattern run by the engine modelled
    here, for a repo pattern of the fragment.  For a pattern the parser
    does not read the answer is [None], which says nothing of the call:
    [re] may reject the pattern or search for it.  What holds of every
    filter is stated on [extract_pr_urls_with]. *)
Definition extract_pr_urls (text : str) (repo_pattern : option str) : option (list str) :=
  extract_pr_urls_with (fun p u => re_search p u NOFLAG) text repo_pattern.

Fixpoint print_rows (rows : list (str * str)) : M unit :=
  match rows with
  | [] => ret tt
  | (channel_id, name) :: rows' =>
      print (lit "  " ++ channel_id ++ lit ": " ++ name) ;;;
      print_rows rows'
  end.

(** List configured channels. *)
Definition cmd_list_channels (w : world) : M unit :=
  channels <- load_registry w ;;
  print (lit "Configured channels:") ;;;
  print (repeat 45%N 50) ;;;
  print_rows (sorted_by_name channels) ;;;
  print (NL ++ lit "Total: " ++ str_of_int (Z.of_nat (List.length channels)) ++ lit " channels") ;;;
  print (NL ++ lit "Edit " ++ channels_file w ++ lit " to add/remove channels").

(** The channels a filter selects: the channel with that identifier, or
    else the channels whose name contains the filter, letter case
    apart; [None] when there is none. *)
Definition filter_channels (channels : registry) (channel_filter : str) : option registry :=
  match dict_get channels channel_filter with
  | Some name => Some [(channel_filter, name)]
  | None =>
      let matched :=
        filter (fun kv => str_in (lower channel_filter) (lower (snd kv))) channels in
      match matched with
      | [] => None
      | _ :: _ => Some matched
      end
  end.

Definition instructions_head (days : Z) (repo_pattern : option str) : str :=
  NL ++
  lit "Search these Slack channels for PR review requests from the last " ++
  str_of_int days ++ lit " days." ++ NL ++
  NL ++
  lit "For each channel, use mcp__slack__slack_get_channel_history to get messages," ++ NL ++
  lit "then look for messages that:" ++ NL ++
  lit "1. Contain GitHub PR URLs matching: " ++
  or_default repo_pattern (lit "github.com/tatari-tv/*/pull/*") ++ NL ++
  lit "2. Contain review request patterns like: eyes, " ++ [EYES] ++
  lit ", review, please look, etc." ++ NL ++
  NL ++
  lit "Report findings as:" ++ NL ++
  lit "- Channel name" ++ NL ++
  lit "- Message author" ++ NL ++
  lit "- Date/time" ++ NL ++
  lit "- PR URL(s)" ++ NL ++
  lit "- Message snippet" ++ NL ++
  NL ++
  lit "Channels to search:" ++ NL.

(** [search_config["instructions"] += line] *)
Definition append_instructions (search_config : dict pyval) (line : str) : dict pyval :=
  match dict_get search_config (lit "instructions") with
  | Some (PStr s) => dict_set search_config (lit "instructions") (PStr (s ++ line))
  | _ => search_config
  end.

Fixpoint add_channel_lines (search_config : dict pyval) (items : list (str * str)) : dict pyval :=
  match items with
  | [] => search_config
  | (channel_id, name) :: items' =>
      add_channel_lines
        (append_instructions search_config
           (lit "  - " ++ name ++ lit " (" ++ channel_id ++ lit ")" ++ NL))
        items'
  end.

(** Search for PR review requests in Slack channels: print the
    instructions for the agent that runs the search. *)
Definition cmd_search (w : world) (days : Z)
    (channel_filter repo_pattern : option str) : M unit :=
  channels <- load_registry w ;;
  channels <-
    match channel_filter with
    | Some (c :: f) =>
        match filter_channels channels (c :: f) with
        | Some selected => ret selected
        | None =>
            eprint (lit "Error: Channel '" ++ (c :: f) ++ lit "' not found") ;;;
            sys_exit 1
        end
    | _ => ret channels
    end ;;
  cutoff_ts <-
    match cutoff_clock w days with
    | Some ts => ret ts
    | None => raise OverflowError
    end ;;
  let search_config : dict pyval :=
    [ (lit "action", PStr (lit "search_slack_for_pr_reviews"));
      (lit "channels", of_registry channels);
      (lit "lookback_days", PInt days);
      (lit "cutoff_timestamp", PFloat (fst cutoff_ts) (snd cutoff_ts));
      (lit "repo_pattern", PStr (or_default repo_pattern DEFAULT_REPO_PATTERN));
      (lit "review_patterns", PList (map PStr REVIEW_PATTERNS));
      (lit "instructions", PStr (instructions_head days repo_pattern)) ] in
  let search_config := add_channel_lines search_config channels in
  print_json (PDict search_config).

(** The parsed command line. *)
Inductive command :=
| CmdSearch (days : Z) (channel repo_pattern : option str)
| CmdListChannels
| CmdNone.

Definition main (w : world) (args : command) : M unit :=
  match args with
  | CmdListChannels => cmd_list_channels w
  | CmdSearch days channel repo_pattern => cmd_search w days channel repo_pattern
  | CmdNone => ([PrintHelp], Ok tt) ;;; sys_exit 1
  end.

End Program.

(** * Specification-side notions *)

(** ** The language of a compiled pattern *)

Definition within (hi : option nat) (n : nat) : Prop :=
  match hi with
  | Some h => n <= h
  | None => True
  end.

Section Language.

Context {db : unicode_db}.

Definition accepts (o : charop) (ch : char) : Prop := charop_accepts o ch = true.

(** [matches c w]: the word [w] belongs to the language of [c].  A
    single opcode stands for one accepted character, a repeat for any
    run of accepted characters whose length lies within its bounds. *)
Inductive matches : code -> str -> Prop :=
| matches_nil : matches [] []
| matches_one : forall o ch c w,
    accepts o ch -> matches c w -> matches (OP_ONE o :: c) (ch :: w)
| matches_repeat : forall lo hi o c u w,
    Forall (accepts o) u -> lo <= length u -> within hi (length u) ->
    matches c w -> matches (OP_REPEAT_ONE lo hi o :: c) (u ++ w).

(** [w] occurs in [s] at index [i]. *)
Definition occurs_at (s : str) (i : nat) (w : str) : Prop :=
  exists pre post, s = pre ++ w ++ post /\ length pre = i.

(** The code has a match somewhere in [s]. *)
Definition found_in (c : code) (s : str) : Prop :=
  exists i w, occurs_at s i w /\ matches c w.

(** A pattern matches a text case-insensitively: the pattern, read with
    [IGNORECASE], has a match in the lowercased text. *)
Definition matches_ignoring_case (pattern text : str) : Prop :=
  exists c, re_compile pattern IGNORECASE = Some c /\ found_in c (lower text).

(** A pattern read as written (no flag) describes the word [w]. *)
Definition has_shape (pattern w : str) : Prop :=
  exists c, re_compile pattern NOFLAG = Some c /\ matches c w.

End Language.

(** Two strings are the same apart from the case of Basic Latin
    letters. *)
Definition same_letters (a b : str) : Prop :=
  map ascii_tolower a = map ascii_tolower b.

(** [r] keeps some elements of [l], in their order. *)
Inductive subsequence {A} : list A -> list A -> Prop :=
| subsequence_nil : subsequence [] []
| subsequence_keep : forall x r l, subsequence r l -> subsequence (x :: r) (x :: l)
| subsequence_drop : forall x r l, subsequence r l -> subsequence r (x :: l).

(** A database with no entry outside the rows written out, on which the
    program can be run on texts of these rows. *)
Definition basic_db : unicode_db :=
  {| db_tolower := fun c => c;
     db_toupper := fun c => c;
     db_tolower_full := fun c => [c];
     db_iscased := fun _ => false;
     db_iscaseignorable := fun _ => false;
     db_isdecimal := fun _ => false;
     db_extra_cases := fun _ => [] |}.

(** ** Notions the properties are stated with *)

(** A pattern matches a text case-insensitively, read plainly: some
    substring of the text is, apart from the case of its letters, a word
    that the pattern describes as written. *)
Definition matches_apart_from_case {db : unicode_db} (pattern text : str) : Prop :=
  exists c i v w,
    re_compile pattern NOFLAG = Some c /\ occurs_at text i v /\
    matches c w /\ same_letters v w.

(** The atoms on which reading with [IGNORECASE] and comparing apart
    from case agree: those but a negated literal, with literals from the
    rows written out. *)
Definition plain_atom (a : atom) : bool :=
  match a with
  | LITERAL l => tabled l
  | NOT_LITERAL _ => false
  | ANY => true
  | CATEGORY_DIGIT => true
  end.

Definition plain_item (it : item) : bool :=
  match it with
  | ONE a => plain_atom a
  | MAX_REPEAT _ _ a => plain_atom a
  end.

(** A text of the rows written out. *)
Definition ordinary (text : str) : Prop := forallb tabled text = true.

(** A text of the rows written out, in lower case. *)
Definition lowered (w : str) : Prop :=
  Forall (fun ch => tabled ch = true /\ ascii_tolower ch = ch) w.

(** The words the specification singles out: the eyes emoji, and
    [:eyes:] and [PTAL] in any letter case. *)
Definition review_marker (v : str) : Prop :=
  v = [EYES] \/ same_letters v (lit ":eyes:") \/ same_letters v (lit "PTAL").

(** A pattern matches a text case-insensitively, as [re] has it: the
    pattern, read with [IGNORECASE], has a match in the text as it
    stands. *)
Definition found_ignoring_case {db : unicode_db} (pattern text : str) : Prop :=
  exists c, re_compile pattern IGNORECASE = Some c /\ found_in c text.

(** A database with the rows of U+0130 (capital I with dot above) and
    U+0307 (combining dot above) as the interpreter has them: the capital
    lowers to [i] alone for [re], and to [i] followed by the combining
    dot for [str.lower]. *)
Definition dotted_db : unicode_db :=
  {| db_tolower := fun c => if (c =? 304)%N then 105%N else c;
     db_toupper := fun c => c;
     db_tolower_full := fun c => if (c =? 304)%N then [105%N; 775%N] else [c];
     db_iscased := fun c => (c =? 304)%N;
     db_iscaseignorable := fun c => (c =? 775)%N;
     db_isdecimal := fun _ => false;
     db_extra_cases := fun _ => [] |}.

(** [REV], U+0130, [EW]. *)
Definition dotted_review : str := [82%N; 69%N; 86%N; 304%N; 69%N; 87%N].

(** The spans lie one after the other: each starts at or after the end
    of the one before it, and strictly after its start. *)
Fixpoint spans_from (start : nat) (spans : list (nat * str)) : Prop :=
  match spans with
  | [] => True
  | (i, u) :: rest => start <= i /\ spans_from (Nat.max (S i) (i + length u)) rest
  end.

Definition no_slash (x : str) : Prop := Forall (fun ch => ch <> 47%N) x.

(** The code [GITHUB_PR_PATTERN] compiles to. *)
Definition GITHUB_PR_CODE : code :=
  map OP_ONE (map OP_LITERAL (lit "http")) ++
  [OP_REPEAT_ONE 0 (Some 1) (OP_LITERAL 115%N)] ++
  map OP_ONE (map OP_LITERAL (lit "://github.com/")) ++
  [OP_REPEAT_ONE 1 None (OP_NOT_LITERAL 47%N); OP_ONE (OP_LITERAL 47%N);
   OP_REPEAT_ONE 1 None (OP_NOT_LITERAL 47%N)] ++
  map OP_ONE (map OP_LITERAL (lit "/pull/")) ++
  [OP_REPEAT_ONE 1 None OP_IN_DIGIT].

(** The text begins like a pull-request URL: with its scheme. *)
Definition url_prefix (t : str) : bool :=
  starts_with (lit "http://") t || starts_with (lit "https://") t.

(** The words the pattern describes, spelled out: scheme, host, owner,
    repository and pull-request number. *)
Definition github_pr_url {db : unicode_db} (w : str) : Prop :=
  exists scheme owner repo number,
    w = lit "http" ++ scheme ++ lit "://github.com/" ++ owner ++ [47%N] ++ repo
        ++ lit "/pull/" ++ number
    /\ (scheme = [] \/ scheme = lit "s")
    /\ owner <> [] /\ no_slash owner
    /\ repo <> [] /\ no_slash repo
    /\ number <> [] /\ Forall (fun ch => Py_UNICODE_ISDECIMAL ch = true) number.

(** The filter regex has a match in the URL. *)
Definition pattern_found {db : unicode_db} (pattern u : str) : Prop :=
  exists c, re_compile pattern NOFLAG = Some c /\ found_in c u.

(** What the filter keeps of a URL. *)
Definition keeps {db : unicode_db} (pattern u : str) : bool :=
  match re_search pattern u NOFLAG with
  | Some true => true
  | _ => false
  end.

(** The URL belongs to the organisation: the organisation is its owner
    component. *)
Definition in_organisation {db : unicode_db} (org u : str) : Prop :=
  exists scheme repo number,
    u = lit "http" ++ scheme ++ lit "://github.com/" ++ org ++ [47%N] ++ repo
        ++ lit "/pull/" ++ number
    /\ github_pr_url u.

Definition org1_text : str := lit "fix in https://github.com/org1/org2/pull/5".
Definition org1_url : str := lit "https://github.com/org1/org2/pull/5".

Definition example_registry : pyval :=
  PDict [(lit "C1", PStr (lit "eng-backend")); (lit "C2", PStr (lit "random"))].

Definition example_world (c : config_file) : world :=
  {| channels_file := lit "/opt/pais/plugins/pr-review-finder/channels.yaml";
     config := c;
     cutoff_clock := fun _ => Some (1756684800%Z, 0%Z) |}.

Definition channel_row (kv : str * str) : event :=
  Stdout (lit "  " ++ fst kv ++ lit ": " ++ snd kv).

(** The channels a run of the search command works on. *)
Definition select_channels {db : unicode_db} (channels : registry)
    (channel_filter : option str) : option registry :=
  match channel_filter with
  | Some (c :: f) => filter_channels channels (c :: f)
  | _ => Some channels
  end.

(** The dictionary the search command prints. *)
Definition search_config (days : Z) (repo_pattern : option str)
    (channels : registry) (cutoff_ts : Z * Z) : dict pyval :=
  add_channel_lines
    [ (lit "action", PStr (lit "search_slack_for_pr_reviews"));
      (lit "channels", of_registry channels);
      (lit "lookback_days", PInt days);
      (lit "cutoff_timestamp", PFloat (fst cutoff_ts) (snd cutoff_ts));
      (lit "repo_pattern", PStr (or_default repo_pattern DEFAULT_REPO_PATTERN));
      (lit "review_patterns", PList (map PStr REVIEW_PATTERNS));
      (lit "instructions", PStr (instructions_head days repo_pattern)) ]
    channels.

Definition channel_not_found (channel_filter : str) : event :=
  Stderr (lit "Error: Channel '" ++ channel_filter ++ lit "' not found").

(** The channels of the printed dictionary, when the run prints one. *)
Definition emitted_channels (m : M unit) : option registry :=
  match m with
  | ([StdoutJson (PDict cfg)], Ok tt) =>
      match dict_get cfg (lit "channels") with
      | Some v => as_registry v
      | None => None
      end
  | _ => None
  end.



Definition OUTPUT_KEYS : list str :=
  [lit "action"; lit "channels"; lit "lookback_days"; lit "cutoff_timestamp";
   lit "repo_pattern"; lit "review_patterns"; lit "instructions"].

(** ** Notions for the further properties *)



(** What the listing prints around the rows. *)
Definition listing (w : world) (rows : list (str * str)) : list event :=
  [Stdout (lit "Configured channels:"); Stdout (repeat 45%N 50)]
  ++ map channel_row rows
  ++ [Stdout (NL ++ lit "Total: " ++ str_of_int (Z.of_nat (length rows)) ++ lit " channels");
      Stdout (NL ++ lit "Edit " ++ channels_file w ++ lit " to add/remove channels")].

(** What a run has written to standard output. *)
Definition stdout_of (m : M unit) : list event :=
  filter (fun e => match e with Stderr _ => false | _ => true end) (fst m).

(** The line of the instructions that names one channel. *)
Definition channel_line (kv : str * str) : str :=
  lit "  - " ++ snd kv ++ lit " (" ++ fst kv ++ lit ")" ++ NL.

(** The patterns that ask for [review] after some other word, and the
    patterns that remain without them. *)
Definition asks_for_review_later (pattern : str) : bool :=
  str_in (lit ".*review") pattern.

Definition PATTERNS_WITHOUT_REVIEW_LATER : list str :=
  filter (fun pattern => negb (asks_for_review_later pattern)) REVIEW_PATTERNS.

(** The default pattern as the instructions spell it. *)
Definition DEFAULT_REPO_GLOB : str := lit "github.com/tatari-tv/*/pull/*".

(** ** [format_timestamp]

    The function is called by nothing in the plugin.  Its conversions
    are those of the interpreter and of the platform: [float] and the
    local-time rendering of [datetime] are parameters. *)

(** [s.split(sep)] for a separator of one character; [cur] holds the
    field being read, last character first. *)
Fixpoint split_from (sep : char) (cur s : str) : list str :=
  match s with
  | [] => [rev cur]
  | c :: s' =>
      if char_eqb c sep then rev cur :: split_from sep [] s'
      else split_from sep (c :: cur) s'
  end.

Definition str_split (s : str) (sep : char) : list str := split_from sep [] s.

(** How the body of a [try] ends. *)
Inductive outcome (A : Type) :=
| Returns (a : A)
| ValueError
| IndexError
| OtherError.

Arguments Returns {A} a.
Arguments ValueError {A}.
Arguments IndexError {A}.
Arguments OtherError {A}.

Section FormatTimestamp.

Variable float : Type.

(** [float(s)]; [None] when it raises [ValueError]. *)
Variable float_of_str : str -> option float.

(** [datetime.fromtimestamp(x).strftime("%Y-%m-%d %H:%M")] in the local
    time zone; a timestamp out of range raises [ValueError],
    [OverflowError] or [OSError] according to the platform. *)
Variable strftime_local : float -> outcome str.

(** Convert Slack timestamp to human-readable format. *)
Definition format_timestamp (ts : str) : outcome str :=
  let body :=
    match nth_error (str_split ts 46%N) 0 with
    | None => IndexError
    | Some seconds =>
        match float_of_str seconds with
        | None => ValueError
        | Some unix_ts => strftime_local unix_ts
        end
    end in
  match body with
  | ValueError | IndexError => Returns ts
  | r => r
  end.

End FormatTimestamp.

(** * Properties *)

Unset Implicit Arguments.

(** ** Strings *)

Lemma str_eqb_eq : forall a b, str_eqb a b = true <-> a = b.
Proof.
  induction a as [|x a IH]; destruct b as [|y b]; simpl; split; intro H;
    try reflexivity; try discriminate.
  - apply andb_true_iff in H. destruct H as [Hx Ha].
    apply N.eqb_eq in Hx. apply IH in Ha. congruence.
  - injection H as -> ->. apply andb_true_iff. split.
    + apply N.eqb_refl.
    + apply IH. reflexivity.
Qed.

Lemma str_eqb_refl : forall a, str_eqb a a = true.
Proof. intro a. apply str_eqb_eq. reflexivity. Qed.

Lemma starts_with_app : forall p s, starts_with p (p ++ s) = true.
Proof.
  induction p as [|x p IH]; intro s; simpl.
  - reflexivity.
  - unfold char_eqb. rewrite N.eqb_refl. apply IH.
Qed.

Lemma starts_with_split : forall p s,
  starts_with p s = true -> exists post, s = p ++ post.
Proof.
  induction p as [|x p IH]; intros s H.
  - exists s. reflexivity.
  - destruct s as [|y s]; simpl in H; [discriminate|].
    apply andb_true_iff in H. destruct H as [Hx Hp].
    apply N.eqb_eq in Hx. subst y.
    destruct (IH _ Hp) as [post ->]. exists post. reflexivity.
Qed.

(** [str_in] decides the substring relation. *)
Lemma str_in_iff : forall p s,
  str_in p s = true <-> exists pre post, s = pre ++ p ++ post.
Proof.
  intros p s. induction s as [|c s IH].
  - simpl. rewrite orb_false_r. split.
    + intro H. apply starts_with_split in H. destruct H as [post H].
      exists [], post. exact H.
    + intros (pre & post & H).
      destruct pre; [|discriminate]. simpl in H.
      destruct p; [reflexivity | discriminate].
  - simpl. rewrite orb_true_iff, IH. split.
    + intros [H | (pre & post & ->)].
      * apply starts_with_split in H. destruct H as [post ->].
        exists [], post. reflexivity.
      * exists (c :: pre), post. reflexivity.
    + intros (pre & post & H). destruct pre as [|d pre].
      * left. simpl in H. rewrite H. apply starts_with_app.
      * right. injection H as _ ->. exists pre, post. reflexivity.
Qed.

Lemma firstn_plus : forall (A : Type) (j l : nat) (s : list A),
  firstn (j + l) s = firstn j s ++ firstn l (skipn j s).
Proof.
  induction j as [|j IH]; intros l s; simpl.
  - reflexivity.
  - destruct s as [|x s]; simpl.
    + rewrite firstn_nil. reflexivity.
    + rewrite IH. reflexivity.
Qed.

Lemma skipn_length_app : forall (A : Type) (u w : list A),
  skipn (length u) (u ++ w) = w.
Proof.
  induction u as [|x u IH]; intro w; simpl; [reflexivity | apply IH].
Qed.

Lemma Forall_firstn_le : forall (A : Type) (P : A -> Prop) (j n : nat) (s : list A),
  j <= n -> Forall P (firstn n s) -> Forall P (firstn j s).
Proof.
  induction j as [|j IH]; intros n s Hle H.
  - constructor.
  - destruct n as [|n]; [lia|]. destruct s as [|x s]; simpl in *.
    + constructor.
    + inversion H; subst. constructor; [assumption|].
      apply IH with (n := n); [lia | assumption].
Qed.

(** ** The engine finds exactly the words of the language *)

Section Engine.

Context {db : unicode_db}.

Lemma within_le : forall hi j n, j <= n -> within hi n -> within hi j.
Proof. intros [h|] j n Hle H; simpl in *; [lia | exact I]. Qed.

Lemma sre_count_length : forall o s hi, sre_count o hi s <= length s.
Proof.
  induction s as [|ch s IH]; intro hi; simpl.
  - lia.
  - destruct hi as [[|h]|]; try lia;
      destruct (charop_accepts o ch); try lia.
    + specialize (IH (option_map pred (Some (S h)))). lia.
    + specialize (IH (option_map pred None)). lia.
Qed.

Lemma sre_count_within : forall o s hi, within hi (sre_count o hi s).
Proof.
  induction s as [|ch s IH]; intro hi; simpl.
  - destruct hi; simpl; [lia | exact I].
  - destruct hi as [[|h]|]; simpl; try lia; try exact I.
    destruct (charop_accepts o ch); [|lia].
    specialize (IH (Some h)). simpl in IH. lia.
Qed.

Lemma sre_count_accepts : forall o s hi,
  Forall (accepts o) (firstn (sre_count o hi s) s).
Proof.
  induction s as [|ch s IH]; intro hi; simpl.
  - constructor.
  - destruct hi as [[|h]|]; simpl; try constructor;
      destruct (charop_accepts o ch) eqn:E; simpl; constructor;
      try exact E; apply IH.
Qed.

(** The count is the longest run the bound allows. *)
Lemma sre_count_max : forall o u post hi,
  Forall (accepts o) u -> within hi (length u) ->
  length u <= sre_count o hi (u ++ post).
Proof.
  induction u as [|ch u IH]; intros post hi Hu Hw; simpl.
  - lia.
  - inversion Hu as [|? ? Hch Hu']; subst. unfold accepts in Hch.
    destruct hi as [[|h]|]; simpl in Hw; try lia; rewrite Hch.
    + specialize (IH post (Some h) Hu'). simpl in IH. simpl. 
      apply le_n_S. apply IH. lia.
    + specialize (IH post None Hu' I). simpl. lia.
Qed.

Lemma sre_back_sound : forall rest lo k r,
  sre_back rest lo k = Some r ->
  exists j l, j <= k /\ (lo <= k -> lo <= j) /\ rest j = Some l /\ r = j + l /\
              forall j', j < j' <= k -> rest j' = None.
Proof.
  induction k as [|k IH]; intros r H; simpl in H.
  - destruct (rest 0) as [l|] eqn:E; [|discriminate].
    injection H as <-. exists 0, l. repeat split; auto; intros; lia.
  - destruct (rest (S k)) as [l|] eqn:E.
    + injection H as <-. exists (S k), l. repeat split; auto; intros; lia.
    + destruct (lo <=? k) eqn:Hlo; [|discriminate].
      apply Nat.leb_le in Hlo.
      destruct (IH _ H) as (j & l & Hj & Hloj & Hr & -> & Hmax).
      exists j, l. repeat split; auto; try lia.
      intros j' Hj'. destruct (Nat.eq_dec j' (S k)) as [->|Hne]; [exact E|].
      apply Hmax. lia.
Qed.

Lemma sre_back_complete : forall rest lo k j,
  lo <= j <= k -> rest j <> None -> sre_back rest lo k <> None.
Proof.
  induction k as [|k IH]; intros j Hj Hrest; simpl.
  - assert (j = 0) by lia. subst j.
    destruct (rest 0); [discriminate | contradiction].
  - destruct (rest (S k)) as [l|] eqn:E; [discriminate|].
    destruct (Nat.eq_dec j (S k)) as [->|Hne]; [contradiction|].
    assert (Hlo : lo <= k) by lia. apply Nat.leb_le in Hlo. rewrite Hlo.
    apply IH with (j := j); [lia | assumption].
Qed.

(** A match the engine reports is a word of the language at the head of
    the text. *)
Lemma sre_match_sound : forall c s l,
  sre_match c s = Some l -> l <= length s /\ matches c (firstn l s).
Proof.
  induction c as [|[o|lo hi o] c IH]; intros s l H; simpl in H.
  - injection H as <-. split; [lia | constructor].
  - destruct s as [|ch s]; [discriminate|].
    destruct (charop_accepts o ch) eqn:E; [|discriminate].
    destruct (sre_match c s) as [l'|] eqn:Hm; [|discriminate].
    injection H as <-. destruct (IH _ _ Hm) as [Hl Hw].
    split; simpl; [lia | constructor; assumption].
  - destruct (sre_count o hi s <? lo) eqn:Hn; [discriminate|].
    apply Nat.ltb_ge in Hn.
    destruct (sre_back_sound _ _ _ _ H) as (j & l' & Hj & Hlo & Hm & -> & _).
    destruct (IH _ _ Hm) as [Hl Hw].
    pose proof (sre_count_length o s hi) as Hlen.
    rewrite length_skipn in Hl. split; [lia|].
    rewrite firstn_plus.
    assert (Hfl : length (firstn j s) = j) by (rewrite length_firstn; lia).
    constructor.
    + apply Forall_firstn_le with (n := sre_count o hi s); [lia|].
      apply sre_count_accepts.
    + rewrite Hfl. auto.
    + rewrite Hfl. apply within_le with (n := sre_count o hi s); [lia|].
      apply sre_count_within.
    + exact Hw.
Qed.

(** Where a word of the language stands at the head of the text, the
    engine reports a match. *)
Lemma sre_match_complete : forall c w,
  matches c w -> forall post, sre_match c (w ++ post) <> None.
Proof.
  induction 1 as [|o ch c w Hch Hw IH|lo hi o c u w Hu Hlo Hhi Hw IH];
    intro post; simpl.
  - discriminate.
  - unfold accepts in Hch. rewrite Hch.
    destruct (sre_match c (w ++ post)) eqn:E; [discriminate|].
    exfalso. exact (IH post E).
  - rewrite <- app_assoc.
    pose proof (sre_count_max o u (w ++ post) hi Hu Hhi) as Hmax.
    destruct (sre_count o hi (u ++ w ++ post) <? lo) eqn:Hn.
    + apply Nat.ltb_lt in Hn. lia.
    + apply sre_back_complete with (j := length u); [lia|].
      rewrite skipn_length_app. apply IH.
Qed.

Lemma occurs_at_skipn : forall s i w,
  occurs_at s i w <-> exists post, skipn i s = w ++ post /\ i <= length s.
Proof.
  intros s i w. split.
  - intros (pre & post & -> & <-). exists post. split.
    + apply skipn_length_app.
    + rewrite length_app. lia.
  - intros (post & H & Hi). exists (firstn i s), post. split.
    + rewrite <- H. symmetry. apply firstn_skipn.
    + rewrite length_firstn. lia.
Qed.

Lemma sre_match_occurs : forall c s i l,
  i <= length s -> sre_match c (skipn i s) = Some l ->
  occurs_at s i (firstn l (skipn i s)) /\ matches c (firstn l (skipn i s)).
Proof.
  intros c s i l Hi H. apply sre_match_sound in H. destruct H as [_ Hm].
  split; [|exact Hm]. apply occurs_at_skipn.
  exists (skipn l (skipn i s)). split; [|exact Hi].
  symmetry. apply firstn_skipn.
Qed.

Lemma occurs_match : forall c s i w,
  occurs_at s i w -> matches c w -> sre_match c (skipn i s) <> None.
Proof.
  intros c s i w Ho Hm. apply occurs_at_skipn in Ho.
  destruct Ho as (post & -> & _). apply sre_match_complete. exact Hm.
Qed.

(** The search reports the leftmost index at which the code matches. *)
Lemma sre_search_sound : forall c s i l,
  sre_search c s = Some (i, l) ->
  i <= length s /\ sre_match c (skipn i s) = Some l /\
  forall j, j < i -> sre_match c (skipn j s) = None.
Proof.
  induction s as [|ch s IH]; intros i l H; simpl in H.
  - destruct (sre_match c []) as [l'|] eqn:E; [|discriminate].
    injection H as <- <-. repeat split; auto; intros; lia.
  - destruct (sre_match c (ch :: s)) as [l'|] eqn:E.
    + injection H as <- <-. repeat split; simpl; auto; intros; lia.
    + destruct (sre_search c s) as [[i' l']|] eqn:Hs; [|discriminate].
      injection H as <- <-. destruct (IH _ _ eq_refl) as (Hi & Hm & Hleft).
      repeat split; simpl; auto; try lia.
      intros [|j] Hj; simpl; [exact E | apply Hleft; lia].
Qed.

Lemma sre_search_none : forall c s,
  sre_search c s = None ->
  forall j, j <= length s -> sre_match c (skipn j s) = None.
Proof.
  induction s as [|ch s IH]; intros H j Hj; simpl in H.
  - destruct (sre_match c []) eqn:E; [discriminate|].
    destruct j; simpl; exact E.
  - destruct (sre_match c (ch :: s)) eqn:E; [discriminate|].
    destruct (sre_search c s) as [[i' l']|] eqn:Hs; [discriminate|].
    destruct j as [|j]; simpl; [exact E|].
    apply IH; [reflexivity | simpl in Hj; lia].
Qed.

(** The search succeeds exactly when the text holds a word of the
    language. *)
Lemma sre_search_found_in : forall c s,
  sre_search c s <> None <-> found_in c s.
Proof.
  intros c s. split.
  - intro H. destruct (sre_search c s) as [[i l]|] eqn:E; [|contradiction].
    apply sre_search_sound in E. destruct E as (Hi & Hm & _).
    exists i, (firstn l (skipn i s)). apply sre_match_occurs; assumption.
  - intros (i & w & Ho & Hm) Hnone.
    apply (occurs_match c s i w Ho Hm).
    apply sre_search_none; [exact Hnone|].
    destruct Ho as (pre & post & -> & <-). rewrite length_app. lia.
Qed.

Lemma re_search_true : forall pattern s fl,
  re_search pattern s fl = Some true <->
  exists c, re_compile pattern fl = Some c /\ found_in c s.
Proof.
  intros pattern s fl. unfold re_search. split.
  - destruct (re_compile pattern fl) as [c|]; [|discriminate].
    destruct (sre_search c s) eqn:E; [|discriminate].
    intros _. exists c. split; [reflexivity|].
    apply sre_search_found_in. rewrite E. discriminate.
  - intros (c & -> & Hf). apply sre_search_found_in in Hf.
    destruct (sre_search c s); [reflexivity | contradiction].
Qed.

Lemma re_search_false : forall pattern s fl,
  re_search pattern s fl = Some false <->
  exists c, re_compile pattern fl = Some c /\ ~ found_in c s.
Proof.
  intros pattern s fl. unfold re_search. split.
  - destruct (re_compile pattern fl) as [c|]; [|discriminate].
    destruct (sre_search c s) eqn:E; [discriminate|].
    intros _. exists c. split; [reflexivity|].
    rewrite <- sre_search_found_in. rewrite E. intro H. apply H. reflexivity.
  - intros (c & -> & Hf). rewrite <- sre_search_found_in in Hf.
    destruct (sre_search c s); [|reflexivity].
    exfalso. apply Hf. discriminate.
Qed.

(** The empty pattern is found in every string. *)
Lemma re_search_empty : forall s fl, re_search [] s fl = Some true.
Proof. intros [|ch s] fl; reflexivity. Qed.

End Engine.

(** ** Lowercasing *)

Section Lower.

Context {db : unicode_db}.

Lemma is_ascii_tabled : forall c, is_ascii c = true -> tabled c = true.
Proof. intros c H. unfold tabled. rewrite H. reflexivity. Qed.

Lemma lower_ucs4_tabled : forall before c after,
  tabled c = true -> lower_ucs4 before c after = [ascii_tolower c].
Proof.
  intros before c after H. unfold lower_ucs4, PyUnicode_ToLowerFull.
  unfold tabled in H. apply orb_true_iff in H.
  destruct (c =? 931)%N eqn:Hs.
  - apply N.eqb_eq in Hs. subst c. destruct H as [H|H]; discriminate.
  - destruct (is_ascii c) eqn:Ha; [reflexivity|].
    destruct H as [H|H]; [discriminate|]. rewrite H.
    apply N.eqb_eq in H. subst c. reflexivity.
Qed.

Lemma do_lower_tabled : forall v before rest,
  forallb tabled v = true ->
  do_lower before (v ++ rest) = map ascii_tolower v ++ do_lower (rev v ++ before) rest.
Proof.
  induction v as [|c v IH]; intros before rest H; simpl.
  - reflexivity.
  - simpl in H. apply andb_true_iff in H. destruct H as [Hc Hv].
    rewrite lower_ucs4_tabled by exact Hc. simpl. f_equal.
    rewrite IH by exact Hv. rewrite <- app_assoc. reflexivity.
Qed.

Lemma do_lower_app : forall pre before rest,
  exists x, do_lower before (pre ++ rest) = x ++ do_lower (rev pre ++ before) rest.
Proof.
  induction pre as [|c pre IH]; intros before rest; simpl.
  - exists []. reflexivity.
  - destruct (IH (c :: before) rest) as [x Hx]. rewrite Hx.
    exists (lower_ucs4 before c (pre ++ rest) ++ x).
    rewrite <- !app_assoc. reflexivity.
Qed.

Lemma lower_do_lower : forall s, lower s = do_lower [] s.
Proof.
  intro s. unfold lower. destruct (forallb is_ascii s) eqn:H; [|reflexivity].
  assert (Ht : forallb tabled s = true).
  { rewrite forallb_forall in *. intros c Hc. apply is_ascii_tabled. auto. }
  pose proof (do_lower_tabled s [] [] Ht) as E.
  simpl in E. rewrite !app_nil_r in E. symmetry. exact E.
Qed.

(** Lowercasing a text lowers a run of tabled characters in place. *)
Lemma lower_occurs : forall pre v post,
  forallb tabled v = true ->
  exists i, occurs_at (lower (pre ++ v ++ post)) i (map ascii_tolower v).
Proof.
  intros pre v post Hv. rewrite lower_do_lower.
  destruct (do_lower_app pre [] (v ++ post)) as [x Hx]. rewrite Hx.
  rewrite do_lower_tabled by exact Hv.
  exists (length x), x, (do_lower (rev v ++ rev pre ++ []) post).
  split; reflexivity.
Qed.

Lemma ascii_tolower_is_ascii : forall c, is_ascii (ascii_tolower c) = is_ascii c.
Proof.
  intro c. unfold ascii_tolower, is_ascii_upper, is_ascii.
  destruct ((65 <=? c)%N && (c <=? 90)%N) eqn:E; [|reflexivity].
  apply andb_true_iff in E. destruct E as [E1 E2].
  apply N.leb_le in E1, E2.
  transitivity true; [|symmetry]; apply N.ltb_lt; lia.
Qed.

Lemma same_letters_ascii : forall v target,
  same_letters v target -> forallb is_ascii target = true ->
  forallb tabled v = true.
Proof.
  unfold same_letters. induction v as [|c v IH]; intros [|t target] H Ht;
    try discriminate; simpl in *.
  - reflexivity.
  - injection H as Hc Hrest. apply andb_true_iff in Ht. destruct Ht as [Ht1 Ht2].
    apply andb_true_iff. split.
    + apply is_ascii_tabled. rewrite <- ascii_tolower_is_ascii, Hc,
        ascii_tolower_is_ascii. exact Ht1.
    + apply IH with (target := target); assumption.
Qed.

End Lower.

(** ** Classification *)

Section Classify.

Context {db : unicode_db}.

Lemma review_patterns_compile :
  Forall (fun p => re_compile p IGNORECASE <> None) REVIEW_PATTERNS.
Proof. unfold REVIEW_PATTERNS. repeat constructor; vm_compute; discriminate. Qed.

Lemma re_search_total : forall p s fl,
  re_compile p fl <> None -> exists b, re_search p s fl = Some b.
Proof.
  intros p s fl H. unfold re_search.
  destruct (re_compile p fl); [|contradiction]. eexists. reflexivity.
Qed.

(** The loop stops at the first pattern found and has searched for the
    patterns up to it; it answers false after searching for them all. *)
Lemma review_loop_spec : forall patterns t,
  Forall (fun p => re_compile p IGNORECASE <> None) patterns ->
  (exists before p after,
      patterns = before ++ p :: after /\
      review_loop patterns t = (before ++ [p], Some true) /\
      re_search p t IGNORECASE = Some true /\
      Forall (fun q => re_search q t IGNORECASE = Some false) before)
  \/ (review_loop patterns t = (patterns, Some false) /\
      Forall (fun q => re_search q t IGNORECASE = Some false) patterns).
Proof.
  induction patterns as [|p patterns IH]; intros t Hc.
  - right. split; [reflexivity | constructor].
  - inversion Hc as [|? ? Hp Hrest]; subst.
    destruct (re_search_total p t IGNORECASE Hp) as [[|] Hb].
    + left. exists [], p, patterns. simpl. rewrite Hb. auto.
    + destruct (IH t Hrest) as [(before & q & after & -> & Hl & Hq & Hbefore) | [Hl Hall]].
      * left. exists (p :: before), q, after. simpl. rewrite Hb, Hl. auto.
      * right. simpl. rewrite Hb, Hl. auto.
Qed.

Lemma Forall_search_false : forall patterns t,
  Forall (fun q => re_search q t IGNORECASE = Some false) patterns ->
  forall q c, In q patterns -> re_compile q IGNORECASE = Some c -> ~ found_in c t.
Proof.
  intros patterns t H q c Hq Hc. rewrite Forall_forall in H.
  specialize (H q Hq). apply re_search_false in H.
  destruct H as (c' & Hc' & Hn). congruence.
Qed.

Lemma is_review_request_true : forall text,
  is_review_request text = Some true <->
  exists p, In p REVIEW_PATTERNS /\ matches_ignoring_case p text.
Proof.
  intro text. unfold is_review_request, matches_ignoring_case.
  destruct (review_loop_spec REVIEW_PATTERNS (lower text) review_patterns_compile)
    as [(before & p & after & Hpat & Hl & Hp & _) | [Hl Hall]]; rewrite Hl; cbn [snd].
  - split; [intros _ | reflexivity]. exists p. split.
    + rewrite Hpat. apply in_or_app. right. left. reflexivity.
    + apply re_search_true. exact Hp.
  - split; [discriminate|]. intros (p & Hin & c & Hc & Hf). exfalso.
    exact (Forall_search_false _ _ Hall p c Hin Hc Hf).
Qed.

Lemma is_review_request_false : forall text,
  is_review_request text = Some false <->
  forall p, In p REVIEW_PATTERNS -> ~ matches_ignoring_case p text.
Proof.
  intro text. split.
  - intros H p Hin Hm.
    assert (Ht : is_review_request text = Some true)
      by (apply is_review_request_true; exists p; auto).
    congruence.
  - intro H. unfold is_review_request.
    destruct (review_loop_spec REVIEW_PATTERNS (lower text) review_patterns_compile)
      as [(before & p & after & Hpat & Hl & Hp & _) | [Hl Hall]]; rewrite Hl; cbn [snd].
    + exfalso. apply (H p).
      * rewrite Hpat. apply in_or_app. right. left. reflexivity.
      * apply re_search_true. exact Hp.
    + reflexivity.
Qed.

(** A word the code matches whole, standing in the lowercased text,
    makes the pattern match. *)
Lemma marker_matches : forall p c w text i,
  re_compile p IGNORECASE = Some c ->
  sre_match c w = Some (length w) ->
  occurs_at (lower text) i w ->
  matches_ignoring_case p text.
Proof.
  intros p c w text i Hc Hm Ho. exists c. split; [exact Hc|].
  exists i, w. split; [exact Ho|].
  apply sre_match_sound in Hm. destruct Hm as [_ Hm].
  rewrite firstn_all in Hm. exact Hm.
Qed.

Lemma review_marker_found : forall pre v post,
  review_marker v ->
  exists p, In p REVIEW_PATTERNS /\ matches_ignoring_case p (pre ++ v ++ post).
Proof.
  intros pre v post [-> | [Hv | Hv]].
  - destruct (lower_occurs pre [EYES] post eq_refl) as [i Hi].
    exists [EYES]. split; [left; reflexivity|].
    eapply marker_matches with (w := [EYES]); [reflexivity | reflexivity | exact Hi].
  - destruct (lower_occurs pre v post (same_letters_ascii _ _ Hv eq_refl)) as [i Hi].
    rewrite Hv in Hi.
    exists (lit ":eyes:"). split; [right; left; reflexivity|].
    eapply marker_matches; [reflexivity | | exact Hi]. reflexivity.
  - destruct (lower_occurs pre v post (same_letters_ascii _ _ Hv eq_refl)) as [i Hi].
    rewrite Hv in Hi.
    exists (lit "PTAL"). split; [unfold REVIEW_PATTERNS; simpl; tauto|].
    eapply marker_matches; [reflexivity | | exact Hi]. reflexivity.
Qed.

End Classify.

(** ** Case-insensitive matching, read plainly *)

Ltac split_test t :=
  match goal with
  | |- context [t] =>
      match t with
      | (?a =? ?b)%N => destruct (N.eqb_spec a b)
      | (?a <=? ?b)%N => destruct (N.leb_spec a b)
      | (?a <? ?b)%N => destruct (N.ltb_spec a b)
      end; try (exfalso; lia); cbn [andb orb negb] in *
  end.

Ltac split_tests :=
  repeat match goal with
  | |- context [(?a <=? ?b)%N] =>
      first [is_var a | is_var b]; split_test (a <=? b)%N
  | |- context [(?a <? ?b)%N] =>
      first [is_var a | is_var b]; split_test (a <? b)%N
  | |- context [(?a + ?k <=? ?b)%N] => is_var a; split_test (a + k <=? b)%N
  | |- context [(?b <=? ?a + ?k)%N] => is_var a; split_test (b <=? a + k)%N
  | |- context [(?a + ?k <? ?b)%N] => is_var a; split_test (a + k <? b)%N
  | |- context [(?a =? ?b)%N] =>
      lazymatch a with context [if _ then _ else _] => fail | _ => idtac end;
      lazymatch b with context [if _ then _ else _] => fail | _ => idtac end;
      split_test (a =? b)%N
  end.

Section Plain.

Context {db : unicode_db}.

Lemma tabled_cases : forall c, tabled c = true -> (c < 128)%N \/ c = EYES.
Proof.
  intros c H. unfold tabled in H. apply orb_true_iff in H.
  destruct H as [H|H]; [left; apply N.ltb_lt; exact H | right; apply N.eqb_eq; exact H].
Qed.

Lemma tolower_tabled : forall c, tabled c = true -> Py_UNICODE_TOLOWER c = ascii_tolower c.
Proof.
  intros c H. unfold Py_UNICODE_TOLOWER, is_ascii.
  destruct (tabled_cases c H) as [Ha | ->]; [|reflexivity].
  apply N.ltb_lt in Ha. rewrite Ha. reflexivity.
Qed.

Lemma toupper_tabled : forall c, tabled c = true -> Py_UNICODE_TOUPPER c = ascii_toupper c.
Proof.
  intros c H. unfold Py_UNICODE_TOUPPER, is_ascii.
  destruct (tabled_cases c H) as [Ha | ->]; [|reflexivity].
  apply N.ltb_lt in Ha. rewrite Ha. reflexivity.
Qed.

Lemma ascii_tolower_tabled : forall c, tabled c = true -> tabled (ascii_tolower c) = true.
Proof.
  intros c H. unfold tabled in *. rewrite ascii_tolower_is_ascii.
  destruct (is_ascii c) eqn:E; [reflexivity|]. simpl in *.
  apply N.eqb_eq in H. subst c. reflexivity.
Qed.

Lemma ascii_tolower_idem : forall c, ascii_tolower (ascii_tolower c) = ascii_tolower c.
Proof.
  intro c. unfold ascii_tolower, is_ascii_upper.
  split_tests; reflexivity || lia.
Qed.

(** On the rows written out, a literal read with [IGNORECASE] accepts
    the characters that are the literal apart from letter case. *)
Lemma literal_ignoring_case : forall l ch,
  tabled l = true -> tabled ch = true ->
  charop_accepts (compile_literal IGNORECASE false l) ch
  = (ascii_tolower ch =? ascii_tolower l)%N.
Proof.
  intros l ch Hl Hch. unfold compile_literal, unicode_iscased.
  rewrite (tolower_tabled l Hl), (toupper_tabled l Hl).
  pose proof (tolower_tabled ch Hch) as Tch.
  pose proof (tabled_cases l Hl) as Hl'. pose proof (tabled_cases ch Hch) as Hc'.
  unfold EXTRA_CASES, ascii_tolower, ascii_toupper, is_ascii_upper, is_ascii_lower,
    is_ascii, EYES in *.
  clear Hl Hch.
  split_tests;
    cbn [charop_accepts char_in existsb xorb orb];
    unfold char_eqb; rewrite ?Tch; split_tests;
    try reflexivity; try lia; try (exfalso; lia).
Qed.

Lemma ascii_tolower_newline : forall y, ascii_tolower y = 10%N -> y = 10%N.
Proof.
  intro y. unfold ascii_tolower, is_ascii_upper. split_tests; intro Ey; lia.
Qed.

Lemma digit_tabled : forall y,
  Py_UNICODE_ISDECIMAL y = true -> tabled (ascii_tolower y) = true ->
  Py_UNICODE_ISDECIMAL (ascii_tolower y) = true.
Proof.
  intros y Hd Ht. apply tabled_cases in Ht.
  unfold Py_UNICODE_ISDECIMAL, ascii_tolower, is_ascii_upper, is_ascii, EYES in *.
  revert Hd Ht. split_tests; intros Ed Et; try discriminate; try reflexivity;
    try (exfalso; lia).
Qed.

(** One character: what the atom accepts with [IGNORECASE] is, apart
    from case, what it accepts as written. *)
Lemma atom_ignoring_case : forall a ch,
  plain_atom a = true -> tabled ch = true -> ascii_tolower ch = ch ->
  accepts (compile_atom IGNORECASE a) ch ->
  exists y, accepts (compile_atom NOFLAG a) y /\ ascii_tolower y = ch.
Proof.
  intros [l| | |] ch Ha Hch Hlow H; cbn [plain_atom compile_atom] in *;
    try discriminate.
  - unfold accepts in H. rewrite (literal_ignoring_case l ch Ha Hch) in H.
    apply N.eqb_eq in H. exists l. split.
    + unfold accepts. simpl. apply N.eqb_refl.
    + congruence.
  - exists ch. auto.
  - exists ch. auto.
Qed.

Lemma atom_apart_from_case : forall a x y,
  plain_atom a = true -> tabled x = true ->
  ascii_tolower x = ascii_tolower y ->
  accepts (compile_atom NOFLAG a) y ->
  accepts (compile_atom IGNORECASE a) (ascii_tolower x).
Proof.
  intros [l| | |] x y Ha Hx Hxy H; cbn [plain_atom compile_atom] in *;
    try discriminate; unfold accepts in *.
  - simpl in H. apply N.eqb_eq in H. subst y.
    rewrite (literal_ignoring_case l _ Ha (ascii_tolower_tabled x Hx)).
    rewrite ascii_tolower_idem, Hxy. apply N.eqb_refl.
  - simpl in *. apply negb_true_iff in H. apply N.eqb_neq in H.
    apply negb_true_iff. apply N.eqb_neq. intro E. apply H.
    apply ascii_tolower_newline. congruence.
  - simpl in *. rewrite Hxy. apply digit_tabled; [exact H|].
    rewrite <- Hxy. apply ascii_tolower_tabled. exact Hx.
Qed.

Lemma run_ignoring_case : forall a u,
  plain_atom a = true -> lowered u ->
  Forall (accepts (compile_atom IGNORECASE a)) u ->
  exists u', Forall (accepts (compile_atom NOFLAG a)) u' /\ map ascii_tolower u' = u.
Proof.
  intros a u Ha. induction u as [|ch u IH]; intros Hl Hu.
  - exists []. split; constructor.
  - inversion Hl as [|? ? [Ht Hlow] Hl']; subst. inversion Hu as [|? ? Hch Hu']; subst.
    destruct (atom_ignoring_case a ch Ha Ht Hlow Hch) as (y & Hy & Ey).
    destruct (IH Hl' Hu') as (u' & Hu'' & Eu).
    exists (y :: u'). split; [constructor; assumption|]. simpl. congruence.
Qed.

Lemma lowered_app : forall u w, lowered (u ++ w) -> lowered u /\ lowered w.
Proof. intros u w H. apply Forall_app in H. exact H. Qed.

(** A word of the language read with [IGNORECASE] is the lowering of a
    word of the language as written. *)
Lemma matches_ignoring_case_word : forall items w',
  forallb plain_item items = true -> lowered w' ->
  matches (map (compile_item IGNORECASE) items) w' ->
  exists w, matches (map (compile_item NOFLAG) items) w /\ map ascii_tolower w = w'.
Proof.
  induction items as [|[a|lo hi a] items IH]; intros w' Hp Hl H; simpl in *.
  - inversion H; subst. exists []. split; constructor.
  - apply andb_true_iff in Hp. destruct Hp as [Ha Hp].
    inversion H as [|? ch ? w0 Hch Hw|]; subst.
    inversion Hl as [|? ? [Ht Hlow] Hl']; subst.
    destruct (atom_ignoring_case a ch Ha Ht Hlow Hch) as (y & Hy & Ey).
    destruct (IH w0 Hp Hl' Hw) as (w & Hm & Ew).
    exists (y :: w). split; [constructor; assumption|]. simpl. congruence.
  - apply andb_true_iff in Hp. destruct Hp as [Ha Hp].
    inversion H as [| |? ? ? ? u w0 Hu Hlo Hhi Hw]; subst.
    apply lowered_app in Hl. destruct Hl as [Hlu Hlw].
    destruct (run_ignoring_case a u Ha Hlu Hu) as (u' & Hu' & Eu).
    destruct (IH w0 Hp Hlw Hw) as (w & Hm & Ew).
    exists (u' ++ w). split.
    + assert (El : length u' = length u) by (rewrite <- Eu; symmetry; apply length_map).
      constructor; try assumption; rewrite El; assumption.
    + rewrite map_app. congruence.
Qed.

Lemma map_eq_app_split : forall (f : char -> char) v u w,
  map f v = map f u ++ w ->
  exists v1 v2, v = v1 ++ v2 /\ map f v1 = map f u /\ map f v2 = w.
Proof.
  intros f v u. revert v. induction u as [|c u IH]; intros v w H; simpl in H.
  - exists [], v. auto.
  - destruct v as [|x v]; [discriminate|]. simpl in H. injection H as Hx H.
    destruct (IH v w H) as (v1 & v2 & -> & E1 & E2).
    exists (x :: v1), v2. simpl. repeat split; congruence.
Qed.

Lemma run_apart_from_case : forall a u v,
  plain_atom a = true -> forallb tabled v = true ->
  map ascii_tolower v = map ascii_tolower u ->
  Forall (accepts (compile_atom NOFLAG a)) u ->
  Forall (accepts (compile_atom IGNORECASE a)) (map ascii_tolower v).
Proof.
  intros a u v Ha. revert v. induction u as [|y u IH]; intros [|x v] Hv E Hu;
    try discriminate; simpl in *; constructor.
  - apply andb_true_iff in Hv. destruct Hv as [Hx _]. injection E as Ex _.
    inversion Hu; subst. apply atom_apart_from_case with (y := y); assumption.
  - apply andb_true_iff in Hv. destruct Hv as [_ Hv]. injection E as _ E.
    inversion Hu; subst. apply IH; assumption.
Qed.

(** A text that is, apart from case, a word of the language as written
    lowers to a word of the language read with [IGNORECASE]. *)
Lemma matches_apart_from_case_word : forall items w,
  forallb plain_item items = true ->
  matches (map (compile_item NOFLAG) items) w ->
  forall v, forallb tabled v = true ->
  map ascii_tolower v = map ascii_tolower w ->
  matches (map (compile_item IGNORECASE) items) (map ascii_tolower v).
Proof.
  induction items as [|[a|lo hi a] items IH]; intros w Hp H v Hv E; simpl in *.
  - inversion H; subst. destruct v; [constructor | discriminate].
  - apply andb_true_iff in Hp. destruct Hp as [Ha Hp].
    inversion H as [|? y ? w0 Hy Hw|]; subst.
    destruct v as [|x v]; [discriminate|]. simpl in *.
    apply andb_true_iff in Hv. destruct Hv as [Hx Hv]. injection E as Ex E.
    constructor.
    + apply atom_apart_from_case with (y := y); assumption.
    + apply IH with (w := w0); assumption.
  - apply andb_true_iff in Hp. destruct Hp as [Ha Hp].
    inversion H as [| |? ? ? ? u w0 Hu Hlo Hhi Hw]; subst.
    rewrite map_app in E. apply map_eq_app_split in E.
    destruct E as (v1 & v2 & -> & E1 & E2).
    rewrite forallb_app in Hv. apply andb_true_iff in Hv. destruct Hv as [Hv1 Hv2].
    rewrite map_app.
    assert (El : length (map ascii_tolower v1) = length u).
    { rewrite E1. apply length_map. }
    constructor.
    + apply run_apart_from_case with (u := u); assumption.
    + rewrite El. exact Hlo.
    + rewrite El. exact Hhi.
    + apply IH with (w := w0); assumption.
Qed.

Lemma lower_ordinary : forall text, ordinary text -> lower text = map ascii_tolower text.
Proof.
  intros text H. rewrite lower_do_lower.
  pose proof (do_lower_tabled text [] [] H) as E.
  simpl in E. rewrite !app_nil_r in E. exact E.
Qed.

Lemma occurs_at_map : forall (f : char -> char) text i w',
  occurs_at (map f text) i w' ->
  exists v, occurs_at text i v /\ map f v = w'.
Proof.
  intros f text i w' (pre & post & E & Hi).
  apply map_eq_app in E. destruct E as (p1 & r1 & -> & <- & E).
  apply map_eq_app in E. destruct E as (v & r2 & -> & <- & <-).
  exists v. split; [|reflexivity]. exists p1, r2. split; [reflexivity|].
  rewrite length_map in Hi. exact Hi.
Qed.

Lemma forallb_occurs : forall (f : char -> bool) text i v,
  forallb f text = true -> occurs_at text i v -> forallb f v = true.
Proof.
  intros f text i v H (pre & post & -> & _).
  rewrite !forallb_app in H. apply andb_true_iff in H. destruct H as [_ H].
  apply andb_true_iff in H. exact (proj1 H).
Qed.

(** On ordinary texts, for a pattern without negated literals, matching
    with [IGNORECASE] in the lowercased text is matching apart from
    case. *)
Lemma matches_ignoring_case_plain : forall pattern items text,
  parse pattern = Some items -> forallb plain_item items = true ->
  ordinary text ->
  (matches_ignoring_case pattern text <-> matches_apart_from_case pattern text).
Proof.
  intros pattern items text Hparse Hplain Hord.
  unfold matches_ignoring_case, matches_apart_from_case, re_compile.
  rewrite Hparse. cbn [option_map]. rewrite (lower_ordinary text Hord). split.
  - intros (c & Hc & i & w' & Ho & Hm). injection Hc as <-.
    apply occurs_at_map in Ho. destruct Ho as (v & Ho & <-).
    pose proof (forallb_occurs tabled text i v Hord Ho) as Hv.
    destruct (matches_ignoring_case_word items (map ascii_tolower v) Hplain) as (w & Hw & Ew).
    + unfold lowered. rewrite Forall_forall. intros ch Hin.
      apply in_map_iff in Hin. destruct Hin as (x & <- & Hx).
      rewrite forallb_forall in Hv. split.
      * apply ascii_tolower_tabled. auto.
      * apply ascii_tolower_idem.
    + exact Hm.
    + eexists. exists i, v, w. repeat split; auto. unfold same_letters. congruence.
  - intros (c & i & v & w & Hc & Ho & Hm & Hs). injection Hc as <-.
    pose proof (forallb_occurs tabled text i v Hord Ho) as Hv.
    eexists. split; [reflexivity|]. exists i, (map ascii_tolower v). split.
    + destruct Ho as (pre & post & -> & Hi). exists (map ascii_tolower pre), (map ascii_tolower post).
      rewrite !map_app, length_map. auto.
    + apply matches_apart_from_case_word with (w := w); assumption.
Qed.

Lemma review_patterns_plain :
  Forall (fun p => exists items, parse p = Some items /\ forallb plain_item items = true)
    REVIEW_PATTERNS.
Proof.
  unfold REVIEW_PATTERNS. repeat constructor; eexists; split; reflexivity.
Qed.

End Plain.

(** ** Matching the text as it stands *)

Section AsItStands.

Context {db : unicode_db}.

(** Read with [IGNORECASE], a plain atom accepts a character of the rows
    written out exactly when it accepts its lowercase. *)
Lemma atom_lowered : forall a ch,
  plain_atom a = true -> tabled ch = true ->
  charop_accepts (compile_atom IGNORECASE a) (ascii_tolower ch)
  = charop_accepts (compile_atom IGNORECASE a) ch.
Proof.
  intros [l| | |] ch Ha Hch; cbn [plain_atom compile_atom] in *; try discriminate Ha.
  - rewrite !literal_ignoring_case by auto using ascii_tolower_tabled.
    rewrite ascii_tolower_idem. reflexivity.
  - cbn [charop_accepts]. f_equal.
    destruct (N.eqb_spec ch 10) as [->|Hne]; [reflexivity|].
    apply N.eqb_neq. intro H. apply ascii_tolower_newline in H. contradiction.
  - cbn [charop_accepts]. unfold ascii_tolower.
    destruct (is_ascii_upper ch) eqn:U; [|reflexivity].
    unfold is_ascii_upper in U. apply andb_true_iff in U. destruct U as [U1 U2].
    apply N.leb_le in U1, U2.
    unfold Py_UNICODE_ISDECIMAL, is_ascii.
    replace (ch + 32 <? 128)%N with true by (symmetry; apply N.ltb_lt; lia).
    replace (ch <? 128)%N with true by (symmetry; apply N.ltb_lt; lia).
    replace (ch + 32 <=? 57)%N with false by (symmetry; apply N.leb_gt; lia).
    replace (ch <=? 57)%N with false by (symmetry; apply N.leb_gt; lia).
    rewrite !andb_false_r. reflexivity.
Qed.

Lemma run_lowered : forall a u,
  plain_atom a = true -> forallb tabled u = true ->
  (Forall (accepts (compile_atom IGNORECASE a)) u
   <-> Forall (accepts (compile_atom IGNORECASE a)) (map ascii_tolower u)).
Proof.
  intros a u Ha. induction u as [|ch u IH]; intro Hu; cbn [map].
  - split; constructor.
  - cbn [forallb] in Hu. apply andb_true_iff in Hu. destruct Hu as [Hch Hu].
    split; intro H; inversion H as [|x l Hx Hl]; subst; constructor;
      try (apply IH; assumption);
      unfold accepts in *; rewrite atom_lowered in * by assumption; assumption.
Qed.

Lemma matches_lowered : forall items w,
  forallb plain_item items = true -> forallb tabled w = true ->
  (matches (map (compile_item IGNORECASE) items) w
   <-> matches (map (compile_item IGNORECASE) items) (map ascii_tolower w)).
Proof.
  induction items as [|it items IH]; intros w Hitems Hw; cbn [map].
  - split; intro H.
    + inversion H. constructor.
    + destruct w; [constructor | inversion H].
  - cbn [forallb] in Hitems. apply andb_true_iff in Hitems.
    destruct Hitems as [Hit Hitems].
    destruct it as [a|lo hi a]; cbn [compile_item plain_item] in *; split; intro H.
    + inversion H as [|o ch c w' Ha Hm|]; subst.
      cbn [forallb] in Hw. apply andb_true_iff in Hw. destruct Hw as [Hch Hw'].
      cbn [map]. constructor.
      * unfold accepts in *. rewrite atom_lowered by assumption. exact Ha.
      * apply (proj1 (IH w' Hitems Hw')). exact Hm.
    + destruct w as [|ch w']; cbn [map] in H; [inversion H|].
      inversion H as [|o ch' c w'' Ha Hm|]; subst.
      cbn [forallb] in Hw. apply andb_true_iff in Hw. destruct Hw as [Hch Hw'].
      constructor.
      * unfold accepts in *. rewrite atom_lowered in Ha by assumption. exact Ha.
      * apply (proj2 (IH w' Hitems Hw')). exact Hm.
    + inversion H as [| |lo' hi' o c u w' Hu Hlo Hhi Hm]; subst.
      rewrite forallb_app in Hw. apply andb_true_iff in Hw. destruct Hw as [Hu' Hw'].
      rewrite map_app. constructor.
      * apply (proj1 (run_lowered a u Hit Hu')). exact Hu.
      * rewrite length_map. exact Hlo.
      * rewrite length_map. exact Hhi.
      * apply (proj1 (IH w' Hitems Hw')). exact Hm.
    + inversion H as [| |lo' hi' o c u' w'' Hu Hlo Hhi Hm Hc Heq]; subst.
      symmetry in Heq. apply map_eq_app in Heq.
      destruct Heq as (u & w' & -> & <- & <-).
      rewrite forallb_app in Hw. apply andb_true_iff in Hw. destruct Hw as [Hu' Hw'].
      rewrite length_map in Hlo, Hhi. constructor; auto.
      * apply (proj2 (run_lowered a u Hit Hu')). exact Hu.
      * apply (proj2 (IH w' Hitems Hw')). exact Hm.
Qed.

Lemma found_in_lowered : forall items text,
  forallb plain_item items = true -> forallb tabled text = true ->
  (found_in (map (compile_item IGNORECASE) items) text
   <-> found_in (map (compile_item IGNORECASE) items) (map ascii_tolower text)).
Proof.
  intros items text Hitems Htext. split.
  - intros (i & w & Ho & Hm).
    pose proof (forallb_occurs tabled text i w Htext Ho) as Hw.
    destruct Ho as (pre & post & -> & Hl).
    exists i, (map ascii_tolower w). split.
    + exists (map ascii_tolower pre), (map ascii_tolower post).
      rewrite !map_app, length_map. auto.
    + apply (proj1 (matches_lowered items w Hitems Hw)). exact Hm.
  - intros (i & w' & Ho & Hm).
    destruct (occurs_at_map ascii_tolower text i w' Ho) as (v & Hv & <-).
    exists i, v. split; [exact Hv|].
    exact (proj2 (matches_lowered items v Hitems (forallb_occurs tabled text i v Htext Hv)) Hm).
Qed.

(** On an ordinary text, lowering the text before the search changes
    nothing for a plain pattern read with [IGNORECASE]. *)
Lemma found_ignoring_case_ordinary : forall pattern items text,
  parse pattern = Some items -> forallb plain_item items = true ->
  ordinary text ->
  (found_ignoring_case pattern text <-> found_ignoring_case pattern (lower text)).
Proof.
  intros pattern items text Hparse Hitems Hord.
  unfold found_ignoring_case, re_compile. rewrite Hparse. cbn [option_map].
  rewrite (lower_ordinary text Hord).
  split; intros (c & Hc & Hf); injection Hc as <-; eexists; (split; [reflexivity|]).
  - exact (proj1 (found_in_lowered items text Hitems Hord) Hf).
  - exact (proj2 (found_in_lowered items text Hitems Hord) Hf).
Qed.

End AsItStands.

(** C3, as stated, fails: a pattern can match the text case-insensitively
    and the text be classified false.  The text is lowered before the
    search, and [str.lower] turns U+0130 into [i] followed by a combining
    dot, where [re] with [IGNORECASE] takes U+0130 itself for an [i]: the
    pattern [review] matches [REV], U+0130, [EW], and matches nothing in
    its lowering. *)
Lemma dotted_capital_i_counterexample :
  In (lit "review") REVIEW_PATTERNS
  /\ @re_search dotted_db (lit "review") dotted_review IGNORECASE = Some true
  /\ @found_ignoring_case dotted_db (lit "review") dotted_review
  /\ @lower dotted_db dotted_review = lit "revi" ++ [775%N] ++ lit "ew"
  /\ @is_review_request dotted_db dotted_review = Some false.
Proof.
  split; [|split; [|split; [|split]]].
  - unfold REVIEW_PATTERNS. cbn [In]. do 3 right. left. reflexivity.
  - vm_compute. reflexivity.
  - apply (proj1 (@re_search_true dotted_db (lit "review") dotted_review IGNORECASE)).
    vm_compute. reflexivity.
  - vm_compute. reflexivity.
  - vm_compute. reflexivity.
Qed.

(** C3, amended.  Classification returns true exactly when at least one
    pattern of the fixed set matches the lowered text, [text.lower()],
    case-insensitively.  The answer is a plain boolean: the patterns are
    searched in order, the loop stops at the first one found, and it
    answers false only after searching for them all.  Every text that
    holds the eyes emoji, or [:eyes:] or [PTAL] in any letter case, is
    classified true.  On an ordinary text (Basic Latin characters and the
    eyes emoji) the lowering changes nothing: classification returns true
    exactly when a pattern of the set matches the text itself
    case-insensitively, which is when some substring of the text is,
    apart from the case of its letters, a word the pattern describes. *)
Theorem is_review_request_spec : forall (db : unicode_db) (text : str),
  (is_review_request text = Some true <->
   exists p, In p REVIEW_PATTERNS /\ found_ignoring_case p (lower text))
  /\ ((exists before p after,
          REVIEW_PATTERNS = before ++ p :: after /\
          patterns_searched text = before ++ [p] /\
          found_ignoring_case p (lower text) /\
          (forall q, In q before -> ~ found_ignoring_case q (lower text)) /\
          is_review_request text = Some true)
      \/ (patterns_searched text = REVIEW_PATTERNS /\
          is_review_request text = Some false))
  /\ (forall pre v post,
        text = pre ++ v ++ post -> review_marker v ->
        is_review_request text = Some true)
  /\ (ordinary text ->
      (is_review_request text = Some true <->
       exists p, In p REVIEW_PATTERNS /\ found_ignoring_case p text)
      /\ forall p, In p REVIEW_PATTERNS ->
           (found_ignoring_case p text <-> matches_apart_from_case p text)).
Proof.
  intros db text. split; [apply is_review_request_true | split; [|split]].
  - unfold patterns_searched, is_review_request.
    destruct (review_loop_spec REVIEW_PATTERNS (lower text) review_patterns_compile)
      as [(before & p & after & Hpat & Hl & Hp & Hbefore) | [Hl _]]; rewrite Hl;
      cbn [fst snd].
    + left. exists before, p, after. repeat split; auto.
      * apply re_search_true. exact Hp.
      * intros q Hq (c & Hc & Hf).
        refine (Forall_search_false _ _ Hbefore q c Hq Hc Hf).
    + right. split; reflexivity.
  - intros pre v post -> Hv. apply is_review_request_true.
    apply review_marker_found. exact Hv.
  - intro Hord.
    pose proof review_patterns_plain as Hplain. rewrite Forall_forall in Hplain.
    assert (Hsame : forall p, In p REVIEW_PATTERNS ->
              (found_ignoring_case p text <-> found_ignoring_case p (lower text))).
    { intros p Hp. destruct (Hplain p Hp) as (items & Hparse & Hitems).
      exact (found_ignoring_case_ordinary p items text Hparse Hitems Hord). }
    split.
    + rewrite is_review_request_true. split; intros (p & Hp & H); exists p;
        (split; [exact Hp|]); apply (Hsame p Hp); exact H.
    + intros p Hp. rewrite (Hsame p Hp).
      destruct (Hplain p Hp) as (items & Hparse & Hitems).
      apply (matches_ignoring_case_plain p items text Hparse Hitems Hord).
Qed.

Lemma is_review_request_spec_witness :
  @is_review_request basic_db (lit "could you pTaL this one") = Some true.
Proof.
  apply (proj1 (proj2 (proj2 (is_review_request_spec basic_db (lit "could you pTaL this one"))))
           (lit "could you ") (lit "pTaL") (lit " this one")).
  - reflexivity.
  - right. right. reflexivity.
Defined.

Lemma not_found_by_search : forall (db : unicode_db) p text,
  re_search p (lower text) IGNORECASE = Some false ->
  ~ matches_ignoring_case p text.
Proof.
  intros db p text H (c & Hc & Hf). apply re_search_false in H.
  destruct H as (c' & Hc' & Hn). rewrite Hc in Hc'. injection Hc' as <-.
  exact (Hn Hf).
Qed.

(** C4.  A text in which none of the heuristic patterns of the fixed set
    is found is classified false; so is an ordinary text none of whose
    substrings is, apart from the case of its letters, a word that one
    of the patterns describes. *)
Theorem is_review_request_none_found : forall (db : unicode_db) (text : str),
  ((forall p, In p REVIEW_PATTERNS -> ~ matches_ignoring_case p text) ->
   is_review_request text = Some false)
  /\ (ordinary text ->
      (forall p, In p REVIEW_PATTERNS -> ~ matches_apart_from_case p text) ->
      is_review_request text = Some false).
Proof.
  intros db text. split.
  - intro H. apply is_review_request_false. exact H.
  - intros Hord H. apply is_review_request_false. intros p Hp Hm.
    apply (H p Hp).
    pose proof review_patterns_plain as Hplain. rewrite Forall_forall in Hplain.
    destruct (Hplain p Hp) as (items & Hparse & Hitems).
    apply (matches_ignoring_case_plain p items text Hparse Hitems Hord). exact Hm.
Qed.

Lemma is_review_request_none_found_witness :
  @is_review_request basic_db (lit "Deployed the new build to staging.") = Some false.
Proof.
  apply (proj1 (is_review_request_none_found basic_db
                  (lit "Deployed the new build to staging."))).
  intros p Hin. apply not_found_by_search.
  unfold REVIEW_PATTERNS in Hin. simpl in Hin.
  repeat (destruct Hin as [<- | Hin]; [vm_compute; reflexivity|]).
  contradiction.
Defined.

(** ** The scan of [findall] *)

Section Scan.

Context {db : unicode_db}.

Variable c : code.

Lemma sre_scan_sound : forall s skip pos p u,
  In (p, u) (sre_scan c skip pos s) ->
  exists i l, p = pos + i /\ skip <= i <= length s /\
              sre_match c (skipn i s) = Some l /\ u = firstn l (skipn i s).
Proof.
  induction s as [|ch s IH]; intros skip pos p u H.
  - destruct skip as [|skip]; simpl in H; [|contradiction].
    destruct (sre_match c []) as [l|] eqn:E; simpl in H; [|contradiction].
    destruct H as [H|[]]. injection H as <- <-.
    exists 0, l. rewrite Nat.add_0_r. simpl. auto.
  - destruct skip as [|skip]; simpl in H.
    + destruct (sre_match c (ch :: s)) as [l|] eqn:E.
      * destruct H as [H|H].
        -- injection H as <- <-. exists 0, l. rewrite Nat.add_0_r.
           simpl. repeat split; auto; lia.
        -- destruct (IH _ _ _ _ H) as (i & l' & -> & Hi & Hm & ->).
           exists (S i), l'. simpl. repeat split; auto; lia.
      * destruct (IH _ _ _ _ H) as (i & l' & -> & Hi & Hm & ->).
        exists (S i), l'. simpl. repeat split; auto; lia.
    + destruct (IH _ _ _ _ H) as (i & l' & -> & Hi & Hm & ->).
      exists (S i), l'. simpl. repeat split; auto; lia.
Qed.

Lemma spans_from_le : forall spans a b,
  a <= b -> spans_from b spans -> spans_from a spans.
Proof.
  intros [|[i u] rest] a b Hab H; simpl in *; [exact I|].
  destruct H as [H1 H2]. split; [lia | exact H2].
Qed.

Lemma sre_scan_ordered : forall s skip pos,
  spans_from (pos + skip) (sre_scan c skip pos s).
Proof.
  induction s as [|ch s IH]; intros skip pos.
  - destruct skip as [|skip]; simpl; [|exact I].
    destruct (sre_match c []) as [l|]; simpl; [|exact I]. split; [lia | exact I].
  - destruct skip as [|skip]; simpl.
    + destruct (sre_match c (ch :: s)) as [l|] eqn:E.
      * split; [lia|].
        apply sre_match_sound in E. destruct E as [Hl _]. simpl in Hl.
        rewrite length_firstn, Nat.min_l by exact Hl.
        apply spans_from_le with (b := S pos + pred l); [|apply IH].
        destruct l as [|l]; cbn [pred]; lia.
      * apply spans_from_le with (b := S pos + 0); [lia | apply IH].
    + apply spans_from_le with (b := S pos + skip); [lia | apply IH].
Qed.

(** When no match of the code begins inside another, the scan reports
    every index at which the code matches. *)
Hypothesis apart : forall s l k,
  sre_match c s = Some l -> 0 < k < l -> sre_match c (skipn k s) = None.

Lemma sre_scan_complete : forall s skip pos i l,
  skip <= i <= length s ->
  sre_match c (skipn i s) = Some l ->
  In (pos + i, firstn l (skipn i s)) (sre_scan c skip pos s).
Proof.
  induction s as [|ch s IH]; intros skip pos i l Hi Hm.
  - assert (i = 0) by (simpl in Hi; lia). subst i.
    assert (skip = 0) by lia. subst skip. simpl in *. rewrite Hm.
    left. rewrite Nat.add_0_r. reflexivity.
  - destruct skip as [|skip]; simpl.
    + destruct i as [|i].
      * simpl in Hm. rewrite Hm. left. rewrite Nat.add_0_r. reflexivity.
      * assert (Hi' : i <= length s) by (simpl in Hi; lia).
        replace (pos + S i) with (S pos + i) by lia.
        destruct (sre_match c (ch :: s)) as [l0|] eqn:E.
        -- right. apply IH; auto.
           destruct (Nat.lt_ge_cases (S i) l0) as [Hlt|Hge]; [|lia].
           rewrite (apart _ _ (S i) E) in Hm by lia. discriminate.
        -- apply IH; auto. lia.
    + destruct i as [|i]; [lia|].
      replace (pos + S i) with (S pos + i) by lia.
      apply IH; auto. simpl in Hi. lia.
Qed.

End Scan.

(** ** The shape of a pull-request URL *)

Section GitHub.

Context {db : unicode_db}.

Lemma github_pr_pattern_code :
  re_compile GITHUB_PR_PATTERN NOFLAG = Some GITHUB_PR_CODE.
Proof. reflexivity. Qed.

Ltac invert_matches :=
  repeat match goal with
  | H : matches (_ :: _) _ |- _ => inversion H; subst; clear H
  | H : matches [] _ |- _ => inversion H; subst; clear H
  | H : accepts (OP_LITERAL _) _ |- _ =>
      unfold accepts in H; simpl in H; apply N.eqb_eq in H; subst
  end.

Lemma length_pos_not_nil : forall (A : Type) (l : list A), 1 <= length l -> l <> [].
Proof. intros A [|x l] H; [simpl in H; lia | discriminate]. Qed.

Lemma not_nil_length_pos : forall (A : Type) (l : list A), l <> [] -> 1 <= length l.
Proof. intros A [|x l] H; [contradiction | simpl; lia]. Qed.

Lemma accepts_not_slash : forall u,
  Forall (accepts (OP_NOT_LITERAL 47%N)) u <-> no_slash u.
Proof.
  intro u. unfold no_slash. rewrite !Forall_forall.
  split; intros H ch Hin; specialize (H ch Hin); unfold accepts in *; simpl in *.
  - intros ->. discriminate.
  - apply negb_true_iff. apply N.eqb_neq. exact H.
Qed.

Lemma accepts_optional_s : forall u,
  Forall (accepts (OP_LITERAL 115%N)) u /\ within (Some 1) (length u) <->
  u = [] \/ u = lit "s".
Proof.
  intro u. split.
  - intros [Hu Hw]. destruct u as [|ch [|ch' u]]; simpl in Hw; [left; reflexivity | | lia].
    right. inversion Hu as [|? ? Hch _]; subst.
    unfold accepts in Hch. simpl in Hch. apply N.eqb_eq in Hch. subst. reflexivity.
  - intros [-> | ->]; simpl; split; try lia; repeat constructor.
Qed.

(** The language of the pattern is the set of pull-request URLs. *)
Lemma github_shape_url : forall w, matches GITHUB_PR_CODE w <-> github_pr_url w.
Proof.
  intro w. split.
  - intro H. unfold GITHUB_PR_CODE in H. simpl in H. invert_matches.
    match goal with
    | Hs : Forall (accepts (OP_LITERAL _)) ?s, Hsw : within (Some 1) (length ?s),
      Hn : Forall (accepts OP_IN_DIGIT) ?n, Hn1 : 1 <= length ?n |- _ =>
        match goal with
        | |- github_pr_url (_ :: _ :: _ :: _ :: s ++ ?rest) =>
            match rest with
            | context [?o ++ 47%N :: ?r ++ _] =>
                exists s, o, r, n
            end
        end
    end.
    rewrite app_nil_r. split; [reflexivity|].
    split; [apply accepts_optional_s; auto|].
    repeat match goal with
    | H : Forall (accepts (OP_NOT_LITERAL _)) _ |- _ => apply accepts_not_slash in H
    end.
    repeat split; auto using length_pos_not_nil.
  - intros (scheme & owner & repo & number & -> & Hs & Ho & Hos & Hr & Hrs & Hn & Hnd).
    apply accepts_optional_s in Hs. destruct Hs as [Hs1 Hs2].
    apply accepts_not_slash in Hos, Hrs.
    apply not_nil_length_pos in Ho, Hr, Hn.
    unfold GITHUB_PR_CODE. simpl.
    do 4 (apply matches_one; [reflexivity|]).
    apply matches_repeat; auto; [lia|].
    do 14 (apply matches_one; [reflexivity|]).
    apply matches_repeat; simpl; auto.
    apply matches_one; [reflexivity|].
    apply matches_repeat; simpl; auto.
    do 6 (apply matches_one; [reflexivity|]).
    rewrite <- (app_nil_r number).
    apply matches_repeat; simpl; auto. constructor.
Qed.

Lemma has_shape_github : forall w,
  has_shape GITHUB_PR_PATTERN w <-> github_pr_url w.
Proof.
  intro w. unfold has_shape. rewrite github_pr_pattern_code. split.
  - intros (c & Hc & Hm). injection Hc as <-. apply github_shape_url. exact Hm.
  - intro H. exists GITHUB_PR_CODE. split; [reflexivity|].
    apply github_shape_url. exact H.
Qed.

End GitHub.

(** ** Matches of the URL pattern do not overlap *)

Lemma Forall_skipn_keep : forall (A : Type) (P : A -> Prop) (n : nat) (l : list A),
  Forall P l -> Forall P (skipn n l).
Proof.
  induction n as [|n IH]; intros l H; [exact H|].
  destruct l as [|x l]; [constructor|]. inversion H; subst. apply IH. assumption.
Qed.

Lemma skipn_within : forall (A : Type) (n : nat) (x y : list A),
  n <= length x -> skipn n (x ++ y) = skipn n x ++ y.
Proof.
  intros A n x y H. rewrite skipn_app.
  replace (n - length x) with 0 by lia. reflexivity.
Qed.

Lemma skipn_beyond : forall (A : Type) (n : nat) (x y : list A),
  length x <= n -> skipn n (x ++ y) = skipn (n - length x) y.
Proof.
  intros A n x y H. rewrite skipn_app, skipn_all2 by exact H. reflexivity.
Qed.

(** A text is cut at its first slash in one way only. *)
Lemma split_first_slash : forall x x' y y',
  no_slash x -> no_slash x' -> x ++ 47%N :: y = x' ++ 47%N :: y' ->
  x = x' /\ y = y'.
Proof.
  induction x as [|c x IH]; intros [|c' x'] y y' Hx Hx' H; simpl in H.
  - injection H as ->. auto.
  - injection H as <- _. inversion Hx'; subst. contradiction.
  - injection H as -> _. inversion Hx; subst. contradiction.
  - injection H as -> H. inversion Hx; inversion Hx'; subst.
    destruct (IH x' y y') as [-> ->]; auto.
Qed.

(** The two slashes after the scheme can only stand on two slashes. *)
Lemma double_slash_aligned : forall a b x r0 y,
  no_slash a -> no_slash x ->
  starts_with (a ++ 47%N :: 47%N :: b) (x ++ 47%N :: r0 :: y) = true ->
  r0 = 47%N.
Proof.
  induction a as [|a0 a IH]; intros b x r0 y Ha Hx H.
  - destruct x as [|x0 x]; cbn [starts_with app] in H; unfold char_eqb in H.
    + apply andb_true_iff in H. destruct H as [_ H].
      apply andb_true_iff in H. destruct H as [H _].
      apply N.eqb_eq in H. congruence.
    + apply andb_true_iff in H. destruct H as [H _].
      apply N.eqb_eq in H. inversion Hx; subst. congruence.
  - inversion Ha; subst. destruct x as [|x0 x]; cbn [starts_with app] in H; unfold char_eqb in H.
    + apply andb_true_iff in H. destruct H as [H _].
      apply N.eqb_eq in H. congruence.
    + apply andb_true_iff in H. destruct H as [_ H].
      inversion Hx; subst. apply IH with (b := b) (x := x) (y := y); assumption.
Qed.

Lemma url_prefix_no_double_slash : forall x r0 y,
  no_slash x -> r0 <> 47%N -> url_prefix (x ++ 47%N :: r0 :: y) = false.
Proof.
  intros x r0 y Hx Hr. unfold url_prefix.
  apply orb_false_iff. split; apply not_true_is_false; intro H; apply Hr.
  - apply (double_slash_aligned (lit "http:") [] x r0 y); auto.
    repeat constructor; discriminate.
  - apply (double_slash_aligned (lit "https:") [] x r0 y); auto.
    repeat constructor; discriminate.
Qed.

Lemma url_prefix_head : forall ch t, ch <> 104%N -> url_prefix (ch :: t) = false.
Proof.
  intros ch t H. unfold url_prefix.
  change (lit "http://") with (104%N :: lit "ttp://").
  change (lit "https://") with (104%N :: lit "ttps://").
  cbn [starts_with]. unfold char_eqb.
  apply N.eqb_neq in H. rewrite N.eqb_sym in H. rewrite H. reflexivity.
Qed.

Section Apart.

Context {db : unicode_db}.

Lemma digit_not_h : forall ch, Py_UNICODE_ISDECIMAL ch = true -> ch <> 104%N.
Proof. intros ch H ->. discriminate. Qed.

Lemma digit_not_slash : forall ch, Py_UNICODE_ISDECIMAL ch = true -> ch <> 47%N.
Proof. intros ch H ->. discriminate. Qed.

(** Past the host, no index inside a URL begins a URL. *)
Lemma url_tail_not_prefix : forall owner repo number post k,
  repo <> [] -> no_slash owner -> no_slash repo ->
  Forall (fun ch => Py_UNICODE_ISDECIMAL ch = true) number ->
  k < length owner + 1 + length repo + 6 + length number ->
  url_prefix (skipn k (owner ++ 47%N :: repo ++ lit "/pull/" ++ number ++ post)) = false.
Proof.
  intros owner repo number post k Hr Hos Hrs Hn Hk.
  destruct repo as [|r0 repo]; [contradiction|]. clear Hr.
  destruct (Nat.le_gt_cases k (length owner)) as [Hle|Hgt].
  - rewrite skipn_within by exact Hle.
    apply url_prefix_no_double_slash.
    + apply Forall_skipn_keep. exact Hos.
    + inversion Hrs; assumption.
  - rewrite skipn_beyond by lia.
    destruct (k - length owner) as [|k1] eqn:E1; [lia|]. cbn [skipn].
    change (r0 :: repo) with ([r0] ++ repo) in *.
    destruct (Nat.le_gt_cases k1 (length ([r0] ++ repo))) as [Hle|Hgt1].
    + rewrite skipn_within by exact Hle.
      apply url_prefix_no_double_slash.
      * apply Forall_skipn_keep. exact Hrs.
      * discriminate.
    + rewrite skipn_beyond by lia. simpl length in *.
      destruct (k1 - S (length repo)) as [|k2] eqn:E2; [lia|]. simpl.
      do 5 (destruct k2 as [|k2];
            [apply url_prefix_head; discriminate | cbn [skipn]]).
      assert (Hk2 : k2 < length number) by lia.
      rewrite skipn_within by lia.
      destruct (skipn k2 number) as [|d rest] eqn:Ed.
      * apply (f_equal (@length _)) in Ed. rewrite length_skipn in Ed.
        simpl in Ed. lia.
      * simpl. apply url_prefix_head. apply digit_not_h.
        assert (Hd : Forall (fun ch => Py_UNICODE_ISDECIMAL ch = true) (d :: rest))
          by (rewrite <- Ed; apply Forall_skipn_keep; exact Hn).
        inversion Hd; assumption.
Qed.

Lemma github_url_prefix : forall w post,
  github_pr_url w -> url_prefix (w ++ post) = true.
Proof.
  intros w post (scheme & owner & repo & number & -> & [-> | ->] & _); reflexivity.
Qed.

Lemma inside_not_prefix : forall w post k,
  github_pr_url w -> 0 < k < length w ->
  url_prefix (skipn k (w ++ post)) = false.
Proof.
  intros w post k (scheme & owner & repo & number & -> & Hs & Ho & Hos & Hr & Hrs & Hn & Hnd) Hk.
  rewrite <- !app_assoc.
  destruct Hs as [-> | ->]; simpl in Hk |- *;
    repeat (rewrite length_app in Hk; simpl in Hk);
    (destruct k as [|k]; [lia|]);
    do 17 (destruct k as [|k]; [reflexivity | cbn [skipn]]).
  - apply url_tail_not_prefix; auto. unfold str, char in *. lia.
  - destruct k as [|k]; [reflexivity | cbn [skipn]].
    apply url_tail_not_prefix; auto. unfold str, char in *. lia.
Qed.

(** No match of the URL pattern begins inside another. *)
Lemma github_apart : forall s l k,
  sre_match GITHUB_PR_CODE s = Some l -> 0 < k < l ->
  sre_match GITHUB_PR_CODE (skipn k s) = None.
Proof.
  intros s l k Hm Hk.
  destruct (sre_match GITHUB_PR_CODE (skipn k s)) as [l2|] eqn:E; [|reflexivity].
  exfalso.
  apply sre_match_sound in Hm, E. destruct Hm as [Hl Hm]. destruct E as [_ E].
  apply github_shape_url in Hm, E.
  pose proof (github_url_prefix _ (skipn l2 (skipn k s)) E) as Hp.
  rewrite firstn_skipn in Hp.
  pose proof (inside_not_prefix _ (skipn l s) k Hm) as Hq.
  rewrite firstn_skipn, length_firstn, Nat.min_l in Hq by exact Hl.
  rewrite Hq in Hp by exact Hk. discriminate.
Qed.

End Apart.

(** ** The match reported for a URL is the longest one *)

Section Longest.

Context {db : unicode_db}.

Lemma sre_count_stop : forall o s ch,
  nth_error s (sre_count o None s) = Some ch -> charop_accepts o ch = false.
Proof.
  induction s as [|c s IH]; intros ch H; simpl in H.
  - discriminate.
  - destruct (charop_accepts o c) eqn:E.
    + simpl in H. apply IH. exact H.
    + simpl in H. injection H as <-. exact E.
Qed.

Lemma nth_error_skipn_plus : forall (A : Type) (j l : nat) (s : list A),
  nth_error (skipn j s) l = nth_error s (j + l).
Proof.
  induction j as [|j IH]; intros l s; simpl; [reflexivity|].
  destruct s as [|x s]; simpl; [destruct l; reflexivity | apply IH].
Qed.

(** A code that ends in an unbounded repeat stops before a character
    the repeat does not accept. *)
Lemma sre_match_last_repeat : forall lo o c s l ch,
  sre_match (c ++ [OP_REPEAT_ONE lo None o]) s = Some l ->
  nth_error s l = Some ch -> charop_accepts o ch = false.
Proof.
  intros lo o. induction c as [|[o'|lo' hi' o'] c IH]; intros s l ch H Hn; simpl in H.
  - destruct (sre_count o None s <? lo) eqn:Hlo; [discriminate|].
    destruct (sre_back_sound _ _ _ _ H) as (j & l' & Hj & _ & Hr & -> & Hmax).
    injection Hr as <-. rewrite Nat.add_0_r in Hn.
    destruct (Nat.eq_dec j (sre_count o None s)) as [->|Hne].
    + apply sre_count_stop with (s := s). exact Hn.
    + specialize (Hmax (sre_count o None s)). simpl in Hmax.
      discriminate Hmax. lia.
  - destruct s as [|c0 s]; [discriminate|].
    destruct (charop_accepts o' c0); [|discriminate].
    destruct (sre_match (c ++ [OP_REPEAT_ONE lo None o]) s) as [l'|] eqn:E;
      [|discriminate].
    injection H as <-. simpl in Hn. exact (IH _ _ _ E Hn).
  - destruct (sre_count o' hi' s <? lo'); [discriminate|].
    destruct (sre_back_sound _ _ _ _ H) as (j & l' & _ & _ & Hr & -> & _).
    apply (IH _ _ _ Hr). rewrite nth_error_skipn_plus. exact Hn.
Qed.

(** If a URL goes on as a URL, it goes on with a digit. *)
Lemma url_extension_digit : forall a e rest,
  github_pr_url a -> github_pr_url (a ++ e :: rest) ->
  Py_UNICODE_ISDECIMAL e = true.
Proof.
  intros a e rest
    (sa & oa & ra & na & -> & Hsa & _ & Hoa & _ & Hra & _ & _)
    (sw & ow & rw & nw & Hw & Hsw & _ & How & _ & Hrw & _ & Hnw).
  repeat (rewrite <- app_assoc in Hw; simpl in Hw).
  assert (Ht : oa ++ 47%N :: ra ++ 47%N :: lit "pull/" ++ na ++ e :: rest
             = ow ++ 47%N :: rw ++ 47%N :: lit "pull/" ++ nw).
  { destruct Hsa as [-> | ->], Hsw as [-> | ->]; simpl in Hw;
      try discriminate Hw; injection Hw as Hw; exact Hw. }
  apply split_first_slash in Ht; auto. destruct Ht as [_ Ht].
  apply split_first_slash in Ht; auto. destruct Ht as [_ Ht].
  simpl in Ht. injection Ht as Ht.
  rewrite Forall_forall in Hnw. apply Hnw. rewrite <- Ht.
  apply in_or_app. right. left. reflexivity.
Qed.

Lemma github_longest : forall w post l,
  sre_match GITHUB_PR_CODE (w ++ post) = Some l -> github_pr_url w ->
  length w <= l.
Proof.
  intros w post l Hm Hw.
  destruct (Nat.le_gt_cases (length w) l) as [Hle|Hgt]; [exact Hle | exfalso].
  pose proof Hm as Hs. apply sre_match_sound in Hs. destruct Hs as [_ Hs].
  apply github_shape_url in Hs.
  rewrite firstn_app in Hs. replace (l - length w) with 0 in Hs by lia.
  simpl in Hs. rewrite app_nil_r in Hs.
  destruct (skipn l w) as [|e rest] eqn:Ek.
  - apply (f_equal (@length _)) in Ek. rewrite length_skipn in Ek. simpl in Ek. lia.
  - assert (Hsplit : w = firstn l w ++ e :: rest)
      by (rewrite <- Ek; symmetry; apply firstn_skipn).
    assert (Hd : Py_UNICODE_ISDECIMAL e = true).
    { apply url_extension_digit with (a := firstn l w) (rest := rest); auto.
      rewrite <- Hsplit. exact Hw. }
    assert (Hn : nth_error (w ++ post) l = Some e).
    { rewrite nth_error_app1 by lia. rewrite <- (Nat.add_0_r l).
      rewrite <- nth_error_skipn_plus, Ek. reflexivity. }
    assert (Hacc : charop_accepts OP_IN_DIGIT e = false).
    { apply (sre_match_last_repeat 1 OP_IN_DIGIT
               (removelast GITHUB_PR_CODE) (w ++ post) l e); auto. }
    simpl in Hacc. congruence.
Qed.

End Longest.

(** ** Extraction of pull-request URLs *)

Lemma comprehension_if_filter : forall (A : Type) (f : A -> option bool) (l r : list A),
  comprehension_if f l = Some r ->
  r = filter (fun x => match f x with Some true => true | _ => false end) l.
Proof.
  induction l as [|x l IH]; intros r H; simpl in H.
  - injection H as <-. reflexivity.
  - destruct (f x) as [b|] eqn:E; [|discriminate].
    destruct (comprehension_if f l) as [r'|]; [|discriminate].
    injection H as <-. simpl. rewrite E. rewrite (IH r' eq_refl).
    destruct b; reflexivity.
Qed.

Lemma comprehension_if_total : forall (A : Type) (f : A -> option bool) (l : list A),
  (forall x, In x l -> f x <> None) -> comprehension_if f l <> None.
Proof.
  induction l as [|x l IH]; intro H; simpl; [discriminate|].
  destruct (f x) as [b|] eqn:E; [|exfalso; exact (H x (or_introl eq_refl) E)].
  assert (Hl : comprehension_if f l <> None)
    by (apply IH; intros y Hy; apply H; right; exact Hy).
  destruct (comprehension_if f l); [discriminate | contradiction].
Qed.

Lemma filter_subsequence : forall (A : Type) (f : A -> bool) (l : list A),
  subsequence (filter f l) l.
Proof.
  induction l as [|x l IH]; simpl; [constructor|].
  destruct (f x); constructor; exact IH.
Qed.

Lemma subsequence_refl : forall (A : Type) (l : list A), subsequence l l.
Proof. induction l as [|x l IH]; constructor; exact IH. Qed.

Lemma filter_all : forall (A : Type) (f : A -> bool) (l : list A),
  (forall x, In x l -> f x = true) -> filter f l = l.
Proof.
  induction l as [|x l IH]; intro H; simpl; [reflexivity|].
  rewrite (H x (or_introl eq_refl)). f_equal. apply IH.
  intros y Hy. apply H. right. exact Hy.
Qed.

Lemma filter_none : forall (A : Type) (f : A -> bool) (l : list A),
  (forall x, In x l -> f x = false) -> filter f l = [].
Proof.
  induction l as [|x l IH]; intro H; simpl; [reflexivity|].
  rewrite (H x (or_introl eq_refl)). apply IH.
  intros y Hy. apply H. right. exact Hy.
Qed.

Section Extract.

Context {db : unicode_db}.

Lemma extract_pr_urls_unfiltered : forall text,
  extract_pr_urls text None = Some (map snd (sre_scan GITHUB_PR_CODE 0 0 text)).
Proof. intro text. reflexivity. Qed.

Lemma keeps_found : forall pattern u, keeps pattern u = true <-> pattern_found pattern u.
Proof.
  intros pattern u. unfold keeps, pattern_found. rewrite <- re_search_true.
  destruct (re_search pattern u NOFLAG) as [[|]|]; split; intro H;
    try reflexivity; try discriminate.
Qed.

Lemma extract_pr_urls_filtered : forall text pattern kept,
  extract_pr_urls text (Some pattern) = Some kept ->
  kept = filter (keeps pattern) (map snd (sre_scan GITHUB_PR_CODE 0 0 text)).
Proof.
  intros text pattern kept H. unfold extract_pr_urls, extract_pr_urls_with in H.
  change (re_findall GITHUB_PR_PATTERN text)
    with (Some (map snd (sre_scan GITHUB_PR_CODE 0 0 text))) in H.
  cbv beta iota in H. destruct pattern as [|ch p].
  - injection H as <-. symmetry. apply filter_all. intros u _.
    unfold keeps. rewrite re_search_empty. reflexivity.
  - apply comprehension_if_filter in H. exact H.
Qed.

Lemma extract_pr_urls_total : forall text pattern,
  re_compile pattern NOFLAG <> None ->
  exists kept, extract_pr_urls text (Some pattern) = Some kept.
Proof.
  intros text pattern Hc. unfold extract_pr_urls, extract_pr_urls_with.
  change (re_findall GITHUB_PR_PATTERN text)
    with (Some (map snd (sre_scan GITHUB_PR_CODE 0 0 text))).
  cbv beta iota. destruct pattern as [|ch p]; [eexists; reflexivity|].
  destruct (comprehension_if (fun u => re_search (ch :: p) u NOFLAG)
              (map snd (sre_scan GITHUB_PR_CODE 0 0 text))) as [r|] eqn:E.
  - exists r. reflexivity.
  - exfalso. revert E. apply comprehension_if_total.
    intros u _. unfold re_search.
    destruct (re_compile (ch :: p) NOFLAG); [discriminate | contradiction].
Qed.

(** The literal pattern [org2] is found exactly in the strings that
    contain it. *)
Lemma org2_found : forall u, pattern_found (lit "org2") u <-> str_in (lit "org2") u = true.
Proof.
  intro u. rewrite str_in_iff. unfold pattern_found. split.
  - intros (c & Hc & i & w & (pre & post & -> & _) & Hm).
    injection Hc as <-. simpl in Hm.
    repeat match goal with
    | H : matches (_ :: _) _ |- _ => inversion H; subst; clear H
    | H : matches [] _ |- _ => inversion H; subst; clear H
    | H : accepts (OP_LITERAL _) _ |- _ =>
        unfold accepts in H; simpl in H; apply N.eqb_eq in H; subst
    end.
    exists pre, post. reflexivity.
  - intros (pre & post & ->). eexists. split; [reflexivity|].
    exists (length pre), (lit "org2"). split.
    + exists pre, post. auto.
    + simpl. repeat (apply matches_one; [reflexivity|]). constructor.
Qed.

End Extract.

(** C5.  With no repo filter, extraction returns the substrings of the
    text that match the pull-request URL pattern, in their order of
    occurrence: every returned string stands in the text and has the
    shape; the returned strings lie one after the other; and every
    substring of the text that has the shape is returned, at its place,
    read to its last digit.  The text [see
    https://github.com/org/repo/pull/42] gives exactly the one URL. *)
Theorem extract_pr_urls_all_matches : forall (db : unicode_db),
  (forall text, exists spans,
      extract_pr_urls text None = Some (map snd spans)
      /\ (forall i u, In (i, u) spans ->
            occurs_at text i u /\ has_shape GITHUB_PR_PATTERN u)
      /\ spans_from 0 spans
      /\ (forall i w, occurs_at text i w -> has_shape GITHUB_PR_PATTERN w ->
            exists u more, In (i, u) spans /\ u = w ++ more))
  /\ extract_pr_urls (lit "see https://github.com/org/repo/pull/42") None
     = Some [lit "https://github.com/org/repo/pull/42"].
Proof.
  intro db. split; [|reflexivity].
  intro text. exists (sre_scan GITHUB_PR_CODE 0 0 text).
  split; [reflexivity | split; [|split]].
  - intros i u H. apply sre_scan_sound in H.
    destruct H as (i' & l & -> & Hi & Hm & ->). simpl.
    destruct (sre_match_occurs _ _ _ _ (proj2 Hi) Hm) as [Ho Hs].
    split; [exact Ho|]. apply has_shape_github. apply github_shape_url. exact Hs.
  - apply (sre_scan_ordered GITHUB_PR_CODE text 0 0).
  - intros i w Ho Hw. apply has_shape_github in Hw.
    apply occurs_at_skipn in Ho. destruct Ho as (post & Hskip & Hi).
    destruct (sre_match GITHUB_PR_CODE (w ++ post)) as [l|] eqn:Hm.
    + pose proof (github_longest w post l Hm Hw) as Hlong.
      exists (firstn l (w ++ post)), (firstn (l - length w) post). split.
      * rewrite <- Hskip in *.
        apply (sre_scan_complete GITHUB_PR_CODE github_apart text 0 0 i l);
          [lia | exact Hm].
      * rewrite firstn_app, firstn_all2 by exact Hlong. reflexivity.
    + exfalso. revert Hm. apply sre_match_complete.
      apply github_shape_url. exact Hw.
Qed.

Ltac forall_chars :=
  repeat (apply Forall_cons; [first [discriminate | reflexivity]|]); apply Forall_nil.

Lemma extract_pr_urls_all_matches_witness :
  exists spans,
    @extract_pr_urls basic_db (lit "see https://github.com/org/repo/pull/42") None
    = Some (map snd spans)
    /\ exists u more,
         In (4, u) spans /\ u = lit "https://github.com/org/repo/pull/4" ++ more.
Proof.
  destruct (proj1 (extract_pr_urls_all_matches basic_db)
              (lit "see https://github.com/org/repo/pull/42"))
    as (spans & Hx & _ & _ & Hall).
  exists spans. split; [exact Hx|]. apply Hall.
  - exists (lit "see "), (lit "2"). split; reflexivity.
  - apply has_shape_github.
    exists (lit "s"), (lit "org"), (lit "repo"), (lit "4").
    split; [reflexivity|]. split; [right; reflexivity|].
    repeat split; try discriminate; unfold no_slash; forall_chars.
Defined.

(** C6, as stated, fails: the filter is searched for in the whole URL,
    so a pull request of a repository named [org2] in the organisation
    [org1] passes the filter [org2].  (The text is Basic Latin: the
    Unicode database plays no part.) *)
Lemma repo_filter_org1_counterexample :
  @extract_pr_urls basic_db org1_text None = Some [org1_url]
  /\ @in_organisation basic_db (lit "org1") org1_url
  /\ @extract_pr_urls basic_db org1_text (Some (lit "org2")) = Some [org1_url]
  /\ @extract_pr_urls basic_db org1_text (Some (lit "org2")) <> Some [].
Proof.
  split; [reflexivity | split; [|split; [reflexivity | discriminate]]].
  exists (lit "s"), (lit "org2"), (lit "5"). split; [reflexivity|].
  exists (lit "s"), (lit "org1"), (lit "org2"), (lit "5").
  split; [reflexivity|]. split; [right; reflexivity|].
  repeat split; try discriminate; unfold no_slash; forall_chars.
Qed.

(** C6, amended.  When a repo filter is supplied, the URLs kept are
    the extracted URLs in which the filter regex has a match, in their
    order: whatever [re.search] does with the filter, and, for a filter
    of the modelled syntax, exactly the URLs in which a word of its
    language occurs; such a filter always gives a result.  The filter
    [org2] applied to a text none of whose pull-request URLs contains
    [org2], such as [see https://github.com/org1/repo/pull/42], yields
    the empty sequence. *)
Theorem extract_pr_urls_repo_filter : forall (db : unicode_db) (text pattern : str),
  (forall search kept, pattern <> [] ->
     extract_pr_urls_with search text (Some pattern) = Some kept ->
     exists urls,
       extract_pr_urls_with search text None = Some urls /\
       kept = filter (fun u => match search pattern u with
                               | Some true => true
                               | _ => false
                               end) urls)
  /\ (forall kept, extract_pr_urls text (Some pattern) = Some kept ->
        exists urls,
          extract_pr_urls text None = Some urls /\
          kept = filter (keeps pattern) urls /\
          forall u, In u kept <-> In u urls /\ pattern_found pattern u)
  /\ (re_compile pattern NOFLAG <> None ->
      exists kept, extract_pr_urls text (Some pattern) = Some kept)
  /\ (forall urls, extract_pr_urls text None = Some urls ->
        (forall u, In u urls -> str_in (lit "org2") u = false) ->
        extract_pr_urls text (Some (lit "org2")) = Some [])
  /\ extract_pr_urls (lit "see https://github.com/org1/repo/pull/42")
       (Some (lit "org2")) = Some [].
Proof.
  intros db text pattern. split; [|split; [|split; [|split]]].
  - intros search kept Hne H.
    exists (map snd (sre_scan GITHUB_PR_CODE 0 0 text)).
    split; [reflexivity|]. unfold extract_pr_urls_with in H.
    change (re_findall GITHUB_PR_PATTERN text)
      with (Some (map snd (sre_scan GITHUB_PR_CODE 0 0 text))) in H.
    cbv beta iota in H. destruct pattern as [|ch p]; [contradiction|].
    apply comprehension_if_filter in H. exact H.
  - intros kept H. exists (map snd (sre_scan GITHUB_PR_CODE 0 0 text)).
    split; [reflexivity|]. apply extract_pr_urls_filtered in H.
    split; [exact H|]. intro u. rewrite H, filter_In, keeps_found. reflexivity.
  - apply extract_pr_urls_total.
  - intros urls Hu Hnone.
    destruct (extract_pr_urls_total text (lit "org2")) as [kept Hk]; [discriminate|].
    rewrite Hk. f_equal. apply extract_pr_urls_filtered in Hk. rewrite Hk.
    rewrite extract_pr_urls_unfiltered in Hu. injection Hu as <-.
    apply filter_none. intros u Hin.
    apply not_true_is_false. rewrite keeps_found, org2_found.
    rewrite (Hnone u Hin). discriminate.
  - reflexivity.
Qed.

Lemma extract_pr_urls_repo_filter_witness :
  @extract_pr_urls basic_db
    (lit "see https://github.com/org1/repo/pull/42 and http://github.com/org1/api/pull/7")
    (Some (lit "org2")) = Some [].
Proof.
  apply (proj1 (proj2 (proj2 (proj2 (extract_pr_urls_repo_filter basic_db
           (lit "see https://github.com/org1/repo/pull/42 and http://github.com/org1/api/pull/7")
           (lit "org2")))))
         [lit "https://github.com/org1/repo/pull/42"; lit "http://github.com/org1/api/pull/7"]).
  - reflexivity.
  - intros u [<- | [<- | []]]; reflexivity.
Defined.

(** C9.  For every text and every repo filter, whatever [re.search]
    makes of the filter, what extraction returns with the filter is a
    subsequence, in the same order, of what it returns without one; a
    URL returned with the filter is returned without it. *)
Theorem extract_pr_urls_filter_subsequence :
  forall (db : unicode_db) (search : str -> str -> option bool)
         (text pattern : str) (kept : list str),
  extract_pr_urls_with search text (Some pattern) = Some kept ->
  exists urls,
    extract_pr_urls_with search text None = Some urls /\
    subsequence kept urls /\
    forall u, In u kept -> In u urls.
Proof.
  intros db search text pattern kept H.
  exists (map snd (sre_scan GITHUB_PR_CODE 0 0 text)).
  split; [reflexivity|]. unfold extract_pr_urls_with in H.
  change (re_findall GITHUB_PR_PATTERN text)
    with (Some (map snd (sre_scan GITHUB_PR_CODE 0 0 text))) in H.
  cbv beta iota in H. destruct pattern as [|ch p].
  - injection H as <-. split; [apply subsequence_refl | auto].
  - apply comprehension_if_filter in H. subst kept.
    split; [apply filter_subsequence|].
    intros u Hu. apply filter_In in Hu. exact (proj1 Hu).
Qed.

Lemma extract_pr_urls_filter_subsequence_witness :
  exists urls,
    @extract_pr_urls basic_db
      (lit "https://github.com/a/x/pull/1 http://github.com/b/y/pull/2 https://github.com/a/z/pull/3")
      None = Some urls /\
    subsequence [lit "https://github.com/a/x/pull/1"; lit "https://github.com/a/z/pull/3"] urls /\
    forall u, In u [lit "https://github.com/a/x/pull/1"; lit "https://github.com/a/z/pull/3"] ->
              In u urls.
Proof.
  apply (extract_pr_urls_filter_subsequence basic_db
           (fun p u => re_search (db := basic_db) p u NOFLAG)
           (lit "https://github.com/a/x/pull/1 http://github.com/b/y/pull/2 https://github.com/a/z/pull/3")
           (lit "github.com/a/.*/pull/")).
  reflexivity.
Defined.

(** ** Loading the channel registry *)

(** C2, as stated, fails: the document of a well-formed file need not
    be a mapping, and [load_channels] never checks that it is.  A file
    that lists the channels as a YAML sequence loads to a list, and an
    empty file to [None]; neither has a [get], so the call ends in an
    [AttributeError] and returns no mapping. *)
Lemma channel_file_not_a_mapping_counterexample :
  load_channels (example_world (Document (PList [PStr (lit "C1"); PStr (lit "C2")])))
    = ([], Raise AttributeError)
  /\ load_channels (example_world (Document PNone)) = ([], Raise AttributeError)
  /\ forall channels,
       load_channels (example_world (Document (PList [PStr (lit "C1"); PStr (lit "C2")])))
         <> ([], Ok channels)
       /\ load_channels (example_world (Document PNone)) <> ([], Ok channels).
Proof. repeat split; try reflexivity; discriminate. Qed.

(** C2, amended.  Loading the registry fails when the channel file is
    absent, with a message on standard error and exit status 1; it fails
    with the parse error of the YAML loader when the file is malformed;
    on a well-formed file whose document is a mapping it returns the
    top-level [channels] entry, and an empty mapping when the document
    has none. *)
Theorem load_channels_spec : forall (w : world),
  (config w = Absent ->
     load_channels w =
       ([Stderr (lit "Error: " ++ channels_file w ++ lit " not found")], Exit 1)
     /\ exit_status (load_channels w) = Some 1%Z)
  /\ (config w = Malformed ->
        load_channels w = ([], Raise YAMLError)
        /\ exit_status (load_channels w) = Some 1%Z)
  /\ (forall data channels,
        config w = Document (PDict data) ->
        dict_get data (lit "channels") = Some channels ->
        load_channels w = ([], Ok channels))
  /\ (forall data,
        config w = Document (PDict data) ->
        dict_get data (lit "channels") = None ->
        load_channels w = ([], Ok (PDict []))).
Proof.
  intro w. unfold load_channels. split; [|split; [|split]].
  - intro H. rewrite H. split; reflexivity.
  - intro H. rewrite H. split; reflexivity.
  - intros data channels Hc Hd. rewrite Hc, Hd. reflexivity.
  - intros data Hc Hd. rewrite Hc, Hd. reflexivity.
Qed.

Lemma load_channels_spec_witness :
  (load_channels (example_world Absent) =
     ([Stderr (lit "Error: /opt/pais/plugins/pr-review-finder/channels.yaml not found")], Exit 1)
   /\ exit_status (load_channels (example_world Absent)) = Some 1%Z)
  /\ (load_channels (example_world Malformed) = ([], Raise YAMLError)
      /\ exit_status (load_channels (example_world Malformed)) = Some 1%Z)
  /\ load_channels (example_world (Document (PDict [(lit "channels", example_registry)])))
     = ([], Ok example_registry)
  /\ load_channels (example_world (Document (PDict [(lit "plugins", PList [])])))
     = ([], Ok (PDict [])).
Proof.
  split; [|split; [|split]].
  - apply (proj1 (load_channels_spec (example_world Absent))). reflexivity.
  - apply (proj1 (proj2 (load_channels_spec (example_world Malformed)))). reflexivity.
  - apply (proj1 (proj2 (proj2 (load_channels_spec
             (example_world (Document (PDict [(lit "channels", example_registry)]))))))
           [(lit "channels", example_registry)]); reflexivity.
  - apply (proj2 (proj2 (proj2 (load_channels_spec
             (example_world (Document (PDict [(lit "plugins", PList [])]))))))
           [(lit "plugins", PList [])]); reflexivity.
Defined.

(** ** Listing the channels *)

Lemma print_rows_events : forall rows,
  print_rows rows = (map channel_row rows, Ok tt).
Proof.
  induction rows as [|[channel_id name] rows IH]; [reflexivity|].
  simpl. rewrite IH. reflexivity.
Qed.

(** What the listing prints for a registry. *)
Lemma cmd_list_channels_events : forall w channels,
  load_registry w = ([], Ok channels) ->
  cmd_list_channels w =
    ([Stdout (lit "Configured channels:"); Stdout (repeat 45%N 50)]
     ++ map channel_row (sorted_by_name channels)
     ++ [Stdout (NL ++ lit "Total: " ++ str_of_int (Z.of_nat (length channels))
                 ++ lit " channels");
         Stdout (NL ++ lit "Edit " ++ channels_file w ++ lit " to add/remove channels")],
     Ok tt).
Proof.
  intros w channels H. unfold cmd_list_channels. rewrite H.
  unfold bind at 1. cbn [app].
  unfold print. unfold bind. rewrite print_rows_events. reflexivity.
Qed.

(** C8.  For an empty registry the listing prints the heading, no
    channel row, and a total of 0. *)
Theorem cmd_list_channels_empty : forall (w : world),
  load_registry w = ([], Ok []) ->
  cmd_list_channels w =
    ([Stdout (lit "Configured channels:");
      Stdout (repeat 45%N 50);
      Stdout (NL ++ lit "Total: 0 channels");
      Stdout (NL ++ lit "Edit " ++ channels_file w ++ lit " to add/remove channels")],
     Ok tt).
Proof.
  intros w H. rewrite (cmd_list_channels_events w [] H). reflexivity.
Qed.

Lemma cmd_list_channels_empty_witness :
  cmd_list_channels (example_world (Document (PDict [(lit "channels", PDict [])]))) =
    ([Stdout (lit "Configured channels:");
      Stdout (repeat 45%N 50);
      Stdout (NL ++ lit "Total: 0 channels");
      Stdout (NL ++ lit "Edit /opt/pais/plugins/pr-review-finder/channels.yaml to add/remove channels")],
     Ok tt).
Proof.
  apply (cmd_list_channels_empty
           (example_world (Document (PDict [(lit "channels", PDict [])])))).
  reflexivity.
Defined.

(** ** Dictionaries *)

Lemma dict_get_set_same : forall (V : Type) (d : dict V) k v,
  dict_get (dict_set d k v) k = Some v.
Proof.
  induction d as [|[k' v'] d IH]; intros k v; simpl.
  - rewrite str_eqb_refl. reflexivity.
  - destruct (str_eqb k k') eqn:E; simpl; rewrite E; [reflexivity | apply IH].
Qed.

Lemma dict_get_set_other : forall (V : Type) (d : dict V) k v k',
  str_eqb k' k = false -> dict_get (dict_set d k v) k' = dict_get d k'.
Proof.
  induction d as [|[k0 v0] d IH]; intros k v k' Hne; simpl.
  - rewrite Hne. reflexivity.
  - destruct (str_eqb k k0) eqn:E; simpl.
    + apply str_eqb_eq in E. subst k0. rewrite Hne. reflexivity.
    + destruct (str_eqb k' k0); [reflexivity | apply IH; exact Hne].
Qed.

Lemma dict_keys_set : forall (V : Type) (d : dict V) k v,
  dict_get d k <> None -> dict_keys (dict_set d k v) = dict_keys d.
Proof.
  induction d as [|[k0 v0] d IH]; intros k v H; simpl in *.
  - contradiction.
  - destruct (str_eqb k k0) eqn:E; simpl; [reflexivity|].
    f_equal. apply IH. exact H.
Qed.

Lemma append_instructions_keys : forall cfg line,
  dict_keys (append_instructions cfg line) = dict_keys cfg.
Proof.
  intros cfg line. unfold append_instructions.
  destruct (dict_get cfg (lit "instructions")) as [[| | | |s| |]|] eqn:E;
    try reflexivity.
  apply dict_keys_set. rewrite E. discriminate.
Qed.

Lemma append_instructions_other : forall cfg line k,
  str_eqb k (lit "instructions") = false ->
  dict_get (append_instructions cfg line) k = dict_get cfg k.
Proof.
  intros cfg line k Hk. unfold append_instructions.
  destruct (dict_get cfg (lit "instructions")) as [[| | | |s| |]|];
    try reflexivity.
  apply dict_get_set_other. exact Hk.
Qed.

Lemma add_channel_lines_keys : forall items cfg,
  dict_keys (add_channel_lines cfg items) = dict_keys cfg.
Proof.
  induction items as [|[channel_id name] items IH]; intro cfg; simpl.
  - reflexivity.
  - rewrite IH. apply append_instructions_keys.
Qed.

Lemma add_channel_lines_other : forall items cfg k,
  str_eqb k (lit "instructions") = false ->
  dict_get (add_channel_lines cfg items) k = dict_get cfg k.
Proof.
  induction items as [|[channel_id name] items IH]; intros cfg k Hk; simpl.
  - reflexivity.
  - rewrite IH by exact Hk. apply append_instructions_other. exact Hk.
Qed.

Lemma as_registry_of_registry : forall r, as_registry (of_registry r) = Some r.
Proof.
  unfold as_registry, of_registry. induction r as [|[k v] r IH]; simpl.
  - reflexivity.
  - rewrite IH. reflexivity.
Qed.

(** ** The search command *)

Section Search.

Context {db : unicode_db}.

Lemma load_registry_cases : forall w,
  (exists r, load_registry w = ([], Ok r)) \/
  (exists out, load_registry w = (out, Exit 1)) \/
  (exists out e, load_registry w = (out, Raise e)) \/
  (exists out, load_registry w = (out, Untyped)).
Proof.
  intro w. unfold load_registry, load_channels.
  destruct (config w) as [| |[| | | | | |data]]; simpl;
    try (right; left; eexists; reflexivity);
    try (right; right; left; eexists; eexists; reflexivity).
  destruct (as_registry _) as [r|]; simpl.
  - left. exists r. reflexivity.
  - right. right. right. eexists. reflexivity.
Qed.

(** A run of the search command, once the registry is loaded. *)
Lemma cmd_search_run : forall w days channel_filter repo_pattern channels,
  load_registry w = ([], Ok channels) ->
  cmd_search w days channel_filter repo_pattern =
    match select_channels channels channel_filter with
    | None => ([channel_not_found (or_default channel_filter [])], Exit 1)
    | Some selected =>
        match cutoff_clock w days with
        | None => ([], Raise OverflowError)
        | Some ts =>
            ([StdoutJson (PDict (search_config days repo_pattern selected ts))], Ok tt)
        end
    end.
Proof.
  intros w days channel_filter repo_pattern channels H.
  unfold cmd_search. rewrite H. unfold bind at 1. cbn [app].
  unfold select_channels.
  destruct channel_filter as [[|c f]|];
    try destruct (filter_channels channels (c :: f)) as [selected|];
    try (destruct (cutoff_clock w days) as [ts|]; reflexivity);
    reflexivity.
Qed.

(** A run that succeeds has loaded a registry, selected channels and
    read the clock. *)
Lemma cmd_search_ok : forall w days channel_filter repo_pattern out,
  cmd_search w days channel_filter repo_pattern = (out, Ok tt) ->
  exists channels selected ts,
    load_registry w = ([], Ok channels) /\
    select_channels channels channel_filter = Some selected /\
    cutoff_clock w days = Some ts /\
    out = [StdoutJson (PDict (search_config days repo_pattern selected ts))].
Proof.
  intros w days channel_filter repo_pattern out H.
  destruct (load_registry_cases w) as [[r Hr] | [[o Hr] | [(o & e & Hr) | [o Hr]]]].
  - rewrite (cmd_search_run w days channel_filter repo_pattern r Hr) in H.
    exists r. destruct (select_channels r channel_filter) as [selected|];
      [|discriminate].
    destruct (cutoff_clock w days) as [ts|]; [|discriminate].
    injection H as <-. exists selected, ts. auto.
  - unfold cmd_search in H. rewrite Hr in H. discriminate.
  - unfold cmd_search in H. rewrite Hr in H. discriminate.
  - unfold cmd_search in H. rewrite Hr in H. discriminate.
Qed.

Lemma search_config_keys : forall days repo_pattern channels ts,
  dict_keys (search_config days repo_pattern channels ts) =
    [lit "action"; lit "channels"; lit "lookback_days"; lit "cutoff_timestamp";
     lit "repo_pattern"; lit "review_patterns"; lit "instructions"].
Proof.
  intros. unfold search_config. rewrite add_channel_lines_keys. reflexivity.
Qed.

Lemma search_config_field : forall days repo_pattern channels ts k,
  str_eqb k (lit "instructions") = false ->
  dict_get (search_config days repo_pattern channels ts) k =
  dict_get
    [ (lit "action", PStr (lit "search_slack_for_pr_reviews"));
      (lit "channels", of_registry channels);
      (lit "lookback_days", PInt days);
      (lit "cutoff_timestamp", PFloat (fst ts) (snd ts));
      (lit "repo_pattern", PStr (or_default repo_pattern DEFAULT_REPO_PATTERN));
      (lit "review_patterns", PList (map PStr REVIEW_PATTERNS)) ] k.
Proof.
  intros days repo_pattern channels ts k Hk. unfold search_config.
  rewrite add_channel_lines_other by exact Hk.
  cbn [dict_get]. 
  repeat match goal with |- context [str_eqb k ?x] => destruct (str_eqb k x) eqn:?; [reflexivity|] end.
  rewrite Hk. reflexivity.
Qed.

End Search.




(** C7.  A search that succeeds prints one JSON object.  Its keys are
    exactly [action], [channels], [lookback_days], [cutoff_timestamp],
    [repo_pattern], [review_patterns] and [instructions]; [channels] is
    the loaded registry, filtered when a filter is given;
    [lookback_days] is the number of days asked for; [review_patterns]
    is the fixed pattern set. *)
Theorem cmd_search_output :
  forall (db : unicode_db) (w : world) (days : Z)
         (channel_filter repo_pattern : option str) (out : list event),
  main w (CmdSearch days channel_filter repo_pattern) = (out, Ok tt) ->
  exists cfg channels selected,
    out = [StdoutJson (PDict cfg)]
    /\ dict_keys cfg = OUTPUT_KEYS
    /\ load_registry w = ([], Ok channels)
    /\ select_channels channels channel_filter = Some selected
    /\ dict_get cfg (lit "channels") = Some (of_registry selected)
    /\ dict_get cfg (lit "lookback_days") = Some (PInt days)
    /\ dict_get cfg (lit "review_patterns") = Some (PList (map PStr REVIEW_PATTERNS)).
Proof.
  intros db w days channel_filter repo_pattern out H. cbn [main] in H.
  apply cmd_search_ok in H.
  destruct H as (channels & selected & ts & Hload & Hsel & Hclock & ->).
  exists (search_config days repo_pattern selected ts), channels, selected.
  split; [reflexivity|]. split; [apply search_config_keys|].
  split; [exact Hload|]. split; [exact Hsel|].
  repeat split; rewrite search_config_field by reflexivity; reflexivity.
Qed.

Lemma cmd_search_output_witness :
  exists cfg channels selected,
    [StdoutJson (PDict (search_config 14 None
                          [(lit "C1", lit "eng-backend")] (1756684800%Z, 0%Z)))]
      = [StdoutJson (PDict cfg)]
    /\ dict_keys cfg = OUTPUT_KEYS
    /\ load_registry (example_world (Document (PDict [(lit "channels", example_registry)])))
       = ([], Ok channels)
    /\ select_channels (db := basic_db) channels (Some (lit "C1")) = Some selected
    /\ dict_get cfg (lit "channels") = Some (of_registry selected)
    /\ dict_get cfg (lit "lookback_days") = Some (PInt 14)
    /\ dict_get cfg (lit "review_patterns") = Some (PList (map PStr REVIEW_PATTERNS)).
Proof.
  apply (cmd_search_output basic_db
           (example_world (Document (PDict [(lit "channels", example_registry)])))
           14 (Some (lit "C1")) None).
  reflexivity.
Defined.

(** C10.  A search invoked with no repo pattern, or with the empty
    string for it, prints the default [github.com/tatari-tv/.*/pull/]
    in the field [repo_pattern]; a repo pattern that is given and not
    empty is printed as it is. *)
Theorem cmd_search_repo_pattern :
  forall (db : unicode_db) (w : world) (days : Z)
         (channel_filter repo_pattern : option str) (cfg : dict pyval),
  main w (CmdSearch days channel_filter repo_pattern)
    = ([StdoutJson (PDict cfg)], Ok tt) ->
  (repo_pattern = None \/ repo_pattern = Some [] ->
   dict_get cfg (lit "repo_pattern")
   = Some (PStr (lit "github.com/tatari-tv/.*/pull/")))
  /\ (forall p, repo_pattern = Some p -> p <> [] ->
      dict_get cfg (lit "repo_pattern") = Some (PStr p)).
Proof.
  intros db w days channel_filter repo_pattern cfg H. cbn [main] in H.
  apply cmd_search_ok in H.
  destruct H as (channels & selected & ts & _ & _ & _ & H).
  injection H as ->.
  split; [intros [-> | ->] | intros [|c p] -> Hp; [contradiction|]];
    rewrite search_config_field by reflexivity; reflexivity.
Qed.

Lemma cmd_search_repo_pattern_witness :
  dict_get
    (search_config 30 (Some [])
       [(lit "C1", lit "eng-backend"); (lit "C2", lit "random")]
       (1756684800%Z, 0%Z))
    (lit "repo_pattern")
  = Some (PStr (lit "github.com/tatari-tv/.*/pull/")).
Proof.
  apply (proj1 (cmd_search_repo_pattern basic_db
           (example_world (Document (PDict [(lit "channels", example_registry)])))
           30 None (Some []) _ eq_refl)).
  right. reflexivity.
Defined.

(** * Further properties of the program *)

(** ** The listing is the registry, sorted by display name *)




Lemma insert_by_name_perm : forall x l, Permutation (insert_by_name x l) (x :: l).
Proof.
  induction l as [|y l IH]; simpl; [reflexivity|].
  destruct (str_ltb (snd y) (snd x)); [|reflexivity].
  rewrite IH. apply perm_swap.
Qed.

Lemma sorted_by_name_perm : forall l, Permutation (sorted_by_name l) l.
Proof.
  induction l as [|x l IH]; simpl; [constructor|].
  rewrite insert_by_name_perm. constructor. exact IH.
Qed.






Lemma cmd_list_channels_listing : forall w channels,
  load_registry w = ([], Ok channels) ->
  cmd_list_channels w = (listing w (sorted_by_name channels), Ok tt).
Proof.
  intros w channels H. rewrite (cmd_list_channels_events w channels H).
  unfold listing. rewrite (Permutation_length (sorted_by_name_perm channels)).
  reflexivity.
Qed.





(** ** The search command prints all or nothing *)

Section SearchRuns.

Context {db : unicode_db}.

Lemma cmd_search_load_failure : forall w days channel_filter repo_pattern out,
  (load_registry w = (out, Exit 1) ->
   cmd_search w days channel_filter repo_pattern = (out, Exit 1))
  /\ (forall e, load_registry w = (out, Raise e) ->
      cmd_search w days channel_filter repo_pattern = (out, Raise e))
  /\ (load_registry w = (out, Untyped) ->
      cmd_search w days channel_filter repo_pattern = (out, Untyped)).
Proof.
  intros. unfold cmd_search. repeat split; intros; rewrite H; reflexivity.
Qed.

Lemma load_registry_failure_stdout : forall w out r,
  load_registry w = (out, r) ->
  filter (fun e => match e with Stderr _ => false | _ => true end) out = [].
Proof.
  intros w out r H.
  destruct (load_registry_cases w) as [[r' Hr] | [[o Hr] | [(o & e & Hr) | [o Hr]]]];
    rewrite Hr in H; injection H as <- _; try reflexivity;
    unfold load_registry, load_channels in Hr;
    destruct (config w) as [| |[| | | | | |data]];
    try (injection Hr as <-; reflexivity); try discriminate Hr;
    cbn [bind ret] in Hr;
    match type of Hr with context [as_registry ?v] => destruct (as_registry v) end;
    injection Hr as <-; reflexivity.
Qed.

End SearchRuns.

(** X3.  The search command prints all or nothing: on a channel file
    whose registry maps strings to strings, a run either succeeds and
    has printed exactly one JSON object, or it ends with exit status 1
    and has written nothing to standard output. *)
Theorem cmd_search_all_or_nothing :
  forall (db : unicode_db) (w : world) (days : Z)
         (channel_filter repo_pattern : option str),
  snd (cmd_search w days channel_filter repo_pattern) <> Untyped ->
  (exists cfg,
      cmd_search w days channel_filter repo_pattern = ([StdoutJson (PDict cfg)], Ok tt))
  \/ (stdout_of (cmd_search w days channel_filter repo_pattern) = []
      /\ exit_status (cmd_search w days channel_filter repo_pattern) = Some 1%Z).
Proof.
  intros db w days channel_filter repo_pattern Htyped.
  destruct (load_registry_cases w) as [[r Hr] | [[o Hr] | [(o & e & Hr) | [o Hr]]]].
  - rewrite (cmd_search_run w days channel_filter repo_pattern r Hr).
    destruct (select_channels r channel_filter) as [selected|].
    + destruct (cutoff_clock w days) as [ts|].
      * left. eexists. reflexivity.
      * right. split; reflexivity.
    + right. split; reflexivity.
  - right.
    rewrite (proj1 (cmd_search_load_failure w days channel_filter repo_pattern o) Hr).
    split; [exact (load_registry_failure_stdout w o _ Hr) | reflexivity].
  - right.
    rewrite (proj1 (proj2 (cmd_search_load_failure w days channel_filter repo_pattern o)) e Hr).
    split; [exact (load_registry_failure_stdout w o _ Hr) | reflexivity].
  - exfalso. apply Htyped.
    rewrite (proj2 (proj2 (cmd_search_load_failure w days channel_filter repo_pattern o)) Hr).
    reflexivity.
Qed.

Lemma cmd_search_all_or_nothing_witness :
  (exists cfg,
      cmd_search (db := basic_db) (example_world Absent) 30 (Some (lit "eng")) None
      = ([StdoutJson (PDict cfg)], Ok tt))
  \/ (stdout_of (cmd_search (db := basic_db) (example_world Absent) 30 (Some (lit "eng")) None)
       = []
      /\ exit_status
           (cmd_search (db := basic_db) (example_world Absent) 30 (Some (lit "eng")) None)
         = Some 1%Z).
Proof.
  apply (cmd_search_all_or_nothing basic_db (example_world Absent) 30 (Some (lit "eng")) None).
  discriminate.
Defined.

(** ** The instructions name the selected channels *)

Lemma append_instructions_text : forall cfg s line,
  dict_get cfg (lit "instructions") = Some (PStr s) ->
  dict_get (append_instructions cfg line) (lit "instructions") = Some (PStr (s ++ line)).
Proof.
  intros cfg s line H. unfold append_instructions. rewrite H.
  apply dict_get_set_same.
Qed.

Lemma add_channel_lines_text : forall items cfg s,
  dict_get cfg (lit "instructions") = Some (PStr s) ->
  dict_get (add_channel_lines cfg items) (lit "instructions")
  = Some (PStr (s ++ flat_map channel_line items)).
Proof.
  induction items as [|[channel_id name] items IH]; intros cfg s H;
    cbn [add_channel_lines flat_map].
  - rewrite app_nil_r. exact H.
  - rewrite (IH _ _ (append_instructions_text cfg s _ H)).
    unfold channel_line at 1. cbn [fst snd]. rewrite <- app_assoc. reflexivity.
Qed.

Lemma emitted_search_config : forall days repo_pattern selected ts,
  emitted_channels
    ([StdoutJson (PDict (search_config days repo_pattern selected ts))], Ok tt)
  = Some selected.
Proof.
  intros. unfold emitted_channels.
  rewrite search_config_field by reflexivity. cbn [dict_get].
  change (str_eqb (lit "channels") (lit "action")) with false.
  change (str_eqb (lit "channels") (lit "channels")) with true.
  cbv iota. apply as_registry_of_registry.
Qed.

(** X4.  In the object a search prints, the instruction text ends with
    one line [  - name (id)] for each channel of the [channels] field,
    in the order of that field, after the fixed text that ends in
    [Channels to search:]. *)
Theorem cmd_search_instructions :
  forall (db : unicode_db) (w : world) (days : Z)
         (channel_filter repo_pattern : option str) (cfg : dict pyval),
  main w (CmdSearch days channel_filter repo_pattern)
    = ([StdoutJson (PDict cfg)], Ok tt) ->
  exists selected,
    dict_get cfg (lit "channels") = Some (of_registry selected)
    /\ dict_get cfg (lit "instructions")
       = Some (PStr (instructions_head days repo_pattern
                     ++ flat_map channel_line selected)).
Proof.
  intros db w days channel_filter repo_pattern cfg H. cbn [main] in H.
  apply cmd_search_ok in H.
  destruct H as (channels & selected & ts & _ & _ & _ & H). injection H as ->.
  exists selected. split.
  - rewrite search_config_field by reflexivity. reflexivity.
  - unfold search_config. apply add_channel_lines_text. reflexivity.
Qed.

Lemma cmd_search_instructions_witness :
  exists selected,
    dict_get
      (search_config 30 None
         [(lit "C1", lit "eng-backend"); (lit "C2", lit "random")] (1756684800%Z, 0%Z))
      (lit "channels") = Some (of_registry selected)
    /\ dict_get
         (search_config 30 None
            [(lit "C1", lit "eng-backend"); (lit "C2", lit "random")] (1756684800%Z, 0%Z))
         (lit "instructions")
       = Some (PStr (instructions_head 30 None ++ flat_map channel_line selected)).
Proof.
  apply (cmd_search_instructions basic_db
           (example_world (Document (PDict [(lit "channels", example_registry)])))
           30 None None).
  reflexivity.
Defined.

(** ** The channels a filter selects *)

Lemma dict_get_subsequence : forall (d : registry) k v,
  dict_get d k = Some v -> subsequence [(k, v)] d.
Proof.
  induction d as [|[k' v'] d IH]; intros k v H; simpl in H; [discriminate|].
  destruct (str_eqb k k') eqn:E.
  - apply str_eqb_eq in E. subst k'. injection H as ->.
    constructor. clear IH. induction d; constructor; assumption.
  - constructor. apply IH. exact H.
Qed.

Lemma dict_get_filter_none : forall (f : str * str -> bool) (d : registry) k,
  dict_get d k = None -> dict_get (filter f d) k = None.
Proof.
  induction d as [|[k' v'] d IH]; intros k H; simpl in *; [reflexivity|].
  destruct (str_eqb k k') eqn:E; [discriminate|].
  destruct (f (k', v')); simpl; [rewrite E|]; apply IH; exact H.
Qed.

Lemma filter_twice : forall (A : Type) (f : A -> bool) (l : list A),
  filter f (filter f l) = filter f l.
Proof.
  induction l as [|x l IH]; simpl; [reflexivity|].
  destruct (f x) eqn:E; simpl; [rewrite E, IH|]; auto.
Qed.

Section Selection.

Context {db : unicode_db}.

Lemma filter_channels_subsequence : forall channels channel_filter selected,
  filter_channels channels channel_filter = Some selected ->
  subsequence selected channels /\ selected <> [].
Proof.
  intros channels channel_filter selected H. unfold filter_channels in H.
  destruct (dict_get channels channel_filter) as [name|] eqn:E.
  - injection H as <-. split; [apply dict_get_subsequence; exact E | discriminate].
  - destruct (filter _ channels) as [|kv rest] eqn:Ef; [discriminate|].
    injection H as <-. split; [|discriminate].
    rewrite <- Ef. apply filter_subsequence.
Qed.

End Selection.

(** X5.  The channels a search emits are channels of the loaded
    registry, in the order of the registry; when a filter that is not
    the empty string is given there is at least one, and without one
    (or with the empty string) they are the whole registry. *)
Theorem cmd_search_selects_from_registry :
  forall (db : unicode_db) (w : world) (days : Z)
         (channel_filter repo_pattern : option str) (channels selected : registry),
  load_registry w = ([], Ok channels) ->
  emitted_channels (cmd_search w days channel_filter repo_pattern) = Some selected ->
  subsequence selected channels
  /\ (truthy channel_filter = true -> selected <> [])
  /\ (truthy channel_filter = false -> selected = channels).
Proof.
  intros db w days channel_filter repo_pattern channels selected Hload H.
  rewrite (cmd_search_run w days channel_filter repo_pattern channels Hload) in H.
  destruct (select_channels channels channel_filter) as [sel|] eqn:Es;
    [|discriminate].
  destruct (cutoff_clock w days) as [ts|]; [|discriminate].
  rewrite emitted_search_config in H. injection H as <-.
  destruct channel_filter as [[|c f]|]; cbn [select_channels truthy] in *.
  - injection Es as <-. repeat split; auto using subsequence_refl. discriminate.
  - apply filter_channels_subsequence in Es. destruct Es as [Hs Hn].
    repeat split; auto. discriminate.
  - injection Es as <-. repeat split; auto using subsequence_refl. discriminate.
Qed.

Lemma cmd_search_selects_from_registry_witness :
  subsequence [(lit "C2", lit "random")]
    [(lit "C1", lit "eng-backend"); (lit "C2", lit "random")]
  /\ (truthy (Some (lit "Rand")) = true -> [(lit "C2", lit "random")] <> [])
  /\ (truthy (Some (lit "Rand")) = false ->
      [(lit "C2", lit "random")] = [(lit "C1", lit "eng-backend"); (lit "C2", lit "random")]).
Proof.
  apply (cmd_search_selects_from_registry basic_db
           (example_world (Document (PDict [(lit "channels", example_registry)])))
           30 (Some (lit "Rand")) None); reflexivity.
Defined.

(** X6.  Selecting is idempotent: the channels a filter selects from a
    registry are what the same filter selects from the selection. *)
Theorem filter_channels_idempotent :
  forall (db : unicode_db) (channels selected : registry) (channel_filter : str),
  filter_channels channels channel_filter = Some selected ->
  filter_channels selected channel_filter = Some selected.
Proof.
  intros db channels selected channel_filter H. unfold filter_channels in *.
  destruct (dict_get channels channel_filter) as [name|] eqn:E.
  - injection H as <-. simpl. rewrite str_eqb_refl. reflexivity.
  - destruct (filter _ channels) as [|kv rest] eqn:Ef; [discriminate|].
    injection H as <-. rewrite <- Ef.
    rewrite dict_get_filter_none by exact E. rewrite filter_twice, Ef. reflexivity.
Qed.

Lemma filter_channels_idempotent_witness :
  filter_channels (db := basic_db)
    [(lit "C1", lit "eng-backend"); (lit "C3", lit "Eng-Frontend")] (lit "ENG")
  = Some [(lit "C1", lit "eng-backend"); (lit "C3", lit "Eng-Frontend")].
Proof.
  apply (filter_channels_idempotent basic_db
           [(lit "C1", lit "eng-backend"); (lit "C2", lit "random");
            (lit "C3", lit "Eng-Frontend")]).
  reflexivity.
Defined.

(** X7.  Matching by display name ignores letter case: two filters of
    ordinary characters that differ only in the case of their letters,
    neither of them a channel identifier, select the same channels. *)
Theorem filter_channels_ignores_case :
  forall (db : unicode_db) (channels : registry) (f1 f2 : str),
  ordinary f1 -> ordinary f2 -> same_letters f1 f2 ->
  dict_get channels f1 = None -> dict_get channels f2 = None ->
  filter_channels channels f1 = filter_channels channels f2.
Proof.
  intros db channels f1 f2 H1 H2 Hs E1 E2. unfold filter_channels.
  rewrite E1, E2, (lower_ordinary f1 H1), (lower_ordinary f2 H2), Hs. reflexivity.
Qed.

Lemma filter_channels_ignores_case_witness :
  filter_channels (db := basic_db)
    [(lit "C1", lit "eng-backend"); (lit "C2", lit "random")] (lit "ENG")
  = filter_channels (db := basic_db)
    [(lit "C1", lit "eng-backend"); (lit "C2", lit "random")] (lit "eNg").
Proof.
  apply (filter_channels_ignores_case basic_db); reflexivity.
Defined.

(** X8.  A channel file whose document has no [channels] entry counts as
    an empty registry: the listing prints no row and a total of 0, and a
    search with any filter that is not the empty string fails with
    [Error: Channel '...' not found] and exit status 1. *)
Theorem no_channels_entry :
  forall (db : unicode_db) (w : world) (data : dict pyval),
  config w = Document (PDict data) ->
  dict_get data (lit "channels") = None ->
  cmd_list_channels w = (listing w [], Ok tt)
  /\ forall days channel_filter repo_pattern,
       channel_filter <> [] ->
       cmd_search w days (Some channel_filter) repo_pattern
       = ([channel_not_found channel_filter], Exit 1).
Proof.
  intros db w data Hc Hd.
  assert (Hload : load_registry w = ([], Ok [])).
  { unfold load_registry, load_channels. rewrite Hc, Hd. reflexivity. }
  split.
  - rewrite (cmd_list_channels_listing w [] Hload). reflexivity.
  - intros days [|c f] repo_pattern Hne; [contradiction|].
    rewrite (cmd_search_run w days _ repo_pattern [] Hload). reflexivity.
Qed.

Lemma no_channels_entry_witness :
  cmd_list_channels (example_world (Document (PDict [(lit "plugins", PList [])])))
  = (listing (example_world (Document (PDict [(lit "plugins", PList [])]))) [], Ok tt)
  /\ forall days channel_filter repo_pattern,
       channel_filter <> [] ->
       cmd_search (db := basic_db)
         (example_world (Document (PDict [(lit "plugins", PList [])])))
         days (Some channel_filter) repo_pattern
       = ([channel_not_found channel_filter], Exit 1).
Proof.
  apply (no_channels_entry basic_db
           (example_world (Document (PDict [(lit "plugins", PList [])])))
           [(lit "plugins", PList [])]); reflexivity.
Defined.

(** ** Classification and letter case *)

Lemma ascii_tolower_eq_cases : forall c1 c2,
  ascii_tolower c1 = ascii_tolower c2 ->
  c1 = c2 \/
  (is_ascii c1 = true /\ is_ascii c2 = true
   /\ (is_ascii_upper c1 || is_ascii_lower c1) = true
   /\ (is_ascii_upper c2 || is_ascii_lower c2) = true).
Proof.
  intros c1 c2. unfold ascii_tolower, is_ascii, is_ascii_upper, is_ascii_lower.
  destruct (65 <=? c1)%N eqn:A1; destruct (c1 <=? 90)%N eqn:B1;
  destruct (65 <=? c2)%N eqn:A2; destruct (c2 <=? 90)%N eqn:B2;
  destruct (97 <=? c1)%N eqn:C1; destruct (c1 <=? 122)%N eqn:D1;
  destruct (97 <=? c2)%N eqn:C2; destruct (c2 <=? 122)%N eqn:D2;
  destruct (c1 <? 128)%N eqn:E1; destruct (c2 <? 128)%N eqn:E2;
  cbn [andb orb]; intro H;
  repeat match goal with
  | X : (_ <=? _)%N = true |- _ => apply N.leb_le in X
  | X : (_ <=? _)%N = false |- _ => apply N.leb_gt in X
  | X : (_ <? _)%N = true |- _ => apply N.ltb_lt in X
  | X : (_ <? _)%N = false |- _ => apply N.ltb_ge in X
  end;
  first [ left; lia | right; repeat split; reflexivity | exfalso; lia ].
Qed.

Section LetterCase.

Context {db : unicode_db}.

Lemma same_letter_sigma : forall c1 c2,
  ascii_tolower c1 = ascii_tolower c2 -> (c1 =? 931)%N = (c2 =? 931)%N.
Proof.
  intros c1 c2 H. destruct (ascii_tolower_eq_cases c1 c2 H) as [->|(H1 & H2 & _)];
    [reflexivity|].
  unfold is_ascii in *. apply N.ltb_lt in H1, H2.
  destruct (N.eqb_spec c1 931); [lia|]. destruct (N.eqb_spec c2 931); [lia|]. reflexivity.
Qed.

Lemma same_letter_lower_full : forall c1 c2,
  ascii_tolower c1 = ascii_tolower c2 ->
  PyUnicode_ToLowerFull c1 = PyUnicode_ToLowerFull c2.
Proof.
  intros c1 c2 H. destruct (ascii_tolower_eq_cases c1 c2 H) as [->|(H1 & H2 & _)];
    [reflexivity|].
  unfold PyUnicode_ToLowerFull. rewrite H1, H2, H. reflexivity.
Qed.

Lemma same_letter_cased : forall c1 c2,
  ascii_tolower c1 = ascii_tolower c2 -> PyUnicode_IsCased c1 = PyUnicode_IsCased c2.
Proof.
  intros c1 c2 H. destruct (ascii_tolower_eq_cases c1 c2 H) as [->|(H1 & H2 & H3 & H4)];
    [reflexivity|].
  unfold PyUnicode_IsCased. rewrite H1, H2, H3, H4. reflexivity.
Qed.

Lemma letter_not_case_ignorable : forall c,
  is_ascii c = true -> (is_ascii_upper c || is_ascii_lower c) = true ->
  PyUnicode_IsCaseIgnorable c = false.
Proof.
  intros c H1 H2. unfold PyUnicode_IsCaseIgnorable. rewrite H1.
  unfold is_ascii_upper, is_ascii_lower in H2.
  apply orb_true_iff in H2.
  repeat match goal with |- context [(c =? ?k)%N] => destruct (N.eqb_spec c k) end;
    try reflexivity; subst c; destruct H2 as [H2|H2]; discriminate H2.
Qed.

Lemma same_letter_case_ignorable : forall c1 c2,
  ascii_tolower c1 = ascii_tolower c2 ->
  PyUnicode_IsCaseIgnorable c1 = PyUnicode_IsCaseIgnorable c2.
Proof.
  intros c1 c2 H. destruct (ascii_tolower_eq_cases c1 c2 H) as [->|(H1 & H2 & H3 & H4)];
    [reflexivity|].
  rewrite !letter_not_case_ignorable by assumption. reflexivity.
Qed.

(** The first character that is not case-ignorable is cased or not
    whatever the case of the letters. *)
Lemma same_letters_skip : forall s1 s2,
  same_letters s1 s2 ->
  option_map PyUnicode_IsCased (skip_case_ignorable s1)
  = option_map PyUnicode_IsCased (skip_case_ignorable s2).
Proof.
  unfold same_letters.
  induction s1 as [|c1 s1 IH]; intros [|c2 s2] H; try discriminate H; [reflexivity|].
  cbn [map] in H. injection H as Hc Hs. cbn [skip_case_ignorable].
  rewrite (same_letter_case_ignorable c1 c2 Hc).
  destruct (PyUnicode_IsCaseIgnorable c2); [apply IH; exact Hs|].
  cbn [option_map]. rewrite (same_letter_cased c1 c2 Hc). reflexivity.
Qed.

Lemma same_letters_sigma : forall b1 b2 a1 a2,
  same_letters b1 b2 -> same_letters a1 a2 ->
  handle_capital_sigma b1 a1 = handle_capital_sigma b2 a2.
Proof.
  intros b1 b2 a1 a2 Hb Ha. unfold handle_capital_sigma.
  pose proof (same_letters_skip b1 b2 Hb) as Eb.
  pose proof (same_letters_skip a1 a2 Ha) as Ea.
  destruct (skip_case_ignorable b1), (skip_case_ignorable b2);
    cbn [option_map] in Eb; try discriminate Eb; [|reflexivity].
  injection Eb as ->.
  destruct (skip_case_ignorable a1), (skip_case_ignorable a2);
    cbn [option_map] in Ea; try discriminate Ea; [|reflexivity].
  injection Ea as ->. reflexivity.
Qed.

Lemma same_letters_do_lower : forall s1 s2 b1 b2,
  same_letters b1 b2 -> same_letters s1 s2 -> do_lower b1 s1 = do_lower b2 s2.
Proof.
  induction s1 as [|c1 s1 IH]; intros [|c2 s2] b1 b2 Hb Hs;
    try discriminate Hs; [reflexivity|].
  unfold same_letters in Hs. cbn [map] in Hs. injection Hs as Hc Hs.
  cbn [do_lower]. f_equal.
  - unfold lower_ucs4. rewrite (same_letter_sigma c1 c2 Hc).
    destruct (c2 =? 931)%N.
    + f_equal. apply same_letters_sigma; assumption.
    + apply same_letter_lower_full. exact Hc.
  - apply IH; [|exact Hs]. unfold same_letters in *. cbn [map]. rewrite Hc, Hb. reflexivity.
Qed.

Lemma same_letters_all_ascii : forall s1 s2,
  same_letters s1 s2 -> forallb is_ascii s1 = forallb is_ascii s2.
Proof.
  unfold same_letters.
  induction s1 as [|c1 s1 IH]; intros [|c2 s2] H; try discriminate H; [reflexivity|].
  cbn [map] in H. injection H as Hc Hs. cbn [forallb].
  rewrite (IH s2 Hs). f_equal.
  rewrite <- (ascii_tolower_is_ascii c1), Hc. apply ascii_tolower_is_ascii.
Qed.

Lemma same_letters_lower : forall s1 s2, same_letters s1 s2 -> lower s1 = lower s2.
Proof.
  intros s1 s2 H. unfold lower. rewrite (same_letters_all_ascii s1 s2 H).
  destruct (forallb is_ascii s2); [exact H|].
  apply same_letters_do_lower; [reflexivity | exact H].
Qed.

End LetterCase.

(** X9.  The classification does not depend on the case of the letters
    A-Z: two texts that differ only there are classified alike, after a
    search for the same patterns, whatever else the texts hold. *)
Theorem is_review_request_ignores_case :
  forall (db : unicode_db) (text1 text2 : str),
  same_letters text1 text2 ->
  is_review_request text1 = is_review_request text2
  /\ patterns_searched text1 = patterns_searched text2.
Proof.
  intros db text1 text2 H. unfold is_review_request, patterns_searched.
  rewrite (same_letters_lower text1 text2 H). split; reflexivity.
Qed.

Lemma is_review_request_ignores_case_witness :
  @is_review_request basic_db (lit "Could Someone REVIEW this?")
  = @is_review_request basic_db (lit "could someone review this?")
  /\ @patterns_searched basic_db (lit "Could Someone REVIEW this?")
     = @patterns_searched basic_db (lit "could someone review this?").
Proof.
  apply (is_review_request_ignores_case basic_db). reflexivity.
Defined.

(** ** A request stays one in any context *)

(** X10.  A text of Basic Latin characters (and the eyes emoji) that is
    a review request stays one with any text before and after it. *)
Theorem is_review_request_in_context :
  forall (db : unicode_db) (pre text post : str),
  ordinary text ->
  is_review_request text = Some true ->
  is_review_request (pre ++ text ++ post) = Some true.
Proof.
  intros db pre text post Hord H.
  apply is_review_request_true in H. destruct H as (p & Hin & c & Hc & Hf).
  apply is_review_request_true. exists p. split; [exact Hin|].
  exists c. split; [exact Hc|].
  rewrite (lower_ordinary text Hord) in Hf.
  destruct Hf as (i & w & (a & b & Hs & _) & Hm).
  destruct (lower_occurs pre text post Hord) as (j & a' & b' & Hs' & Hl).
  exists (length (a' ++ a)), w. split; [|exact Hm].
  exists (a' ++ a), (b ++ b'). split; [|reflexivity].
  rewrite Hs', Hs, <- !app_assoc. reflexivity.
Qed.

Lemma is_review_request_in_context_witness :
  @is_review_request basic_db
    ([233%N] ++ lit "ptal" ++ [EYES; 931%N]) = Some true.
Proof.
  apply (is_review_request_in_context basic_db); reflexivity.
Defined.

(** ** Patterns that never decide *)

Section Redundant.

Context {db : unicode_db}.

Lemma matches_app_inv : forall c1 c2 w,
  matches (c1 ++ c2) w ->
  exists w1 w2, w = w1 ++ w2 /\ matches c1 w1 /\ matches c2 w2.
Proof.
  induction c1 as [|o c1 IH]; intros c2 w H.
  - exists [], w. repeat split; [constructor | exact H].
  - cbn [app] in H.
    inversion H as [| o' ch c' w' Ha Hm | lo hi o' c' u w' Hu Hlo Hhi Hm]; subst.
    + destruct (IH _ _ Hm) as (w1 & w2 & -> & M1 & M2).
      exists (ch :: w1), w2. repeat split; [constructor; assumption | exact M2].
    + destruct (IH _ _ Hm) as (w1 & w2 & -> & M1 & M2).
      exists (u ++ w1), w2. rewrite app_assoc.
      repeat split; [constructor; assumption | exact M2].
Qed.

Lemma found_in_skipn : forall c s k, found_in c s -> found_in (skipn k c) s.
Proof.
  intros c s k (i & w & (pre & post & Hs & Hl) & Hm).
  rewrite <- (firstn_skipn k c) in Hm.
  destruct (matches_app_inv _ _ _ Hm) as (w1 & w2 & -> & _ & H2).
  exists (length (pre ++ w1)), w2. split; [|exact H2].
  exists (pre ++ w1), post. split; [|reflexivity].
  rewrite Hs, <- !app_assoc. reflexivity.
Qed.

Ltac run_parse H :=
  match type of H with
  | context [parse ?p] =>
      let x := eval vm_compute in (parse p) in change (parse p) with x in H
  end.

(** A pattern that asks for [review] after some other word is only
    found where [review] is. *)
Lemma review_later_search : forall p t,
  In p REVIEW_PATTERNS -> asks_for_review_later p = true ->
  re_search p t IGNORECASE = Some true ->
  re_search (lit "review") t IGNORECASE = Some true.
Proof.
  intros p t Hin Hp H. apply re_search_true in H. destruct H as (c & Hc & Hf).
  apply re_search_true. eexists. split; [reflexivity|].
  unfold REVIEW_PATTERNS in Hin. cbn [In] in Hin.
  repeat (destruct Hin as [<-|Hin]; [try (vm_compute in Hp; discriminate Hp)|]);
    try contradiction;
    unfold re_compile in Hc; run_parse Hc; cbn [option_map] in Hc; injection Hc as <-;
    first [ exact (found_in_skipn _ _ 5 Hf)
          | exact (found_in_skipn _ _ 6 Hf)
          | exact (found_in_skipn _ _ 7 Hf)
          | exact (found_in_skipn _ _ 8 Hf) ].
Qed.

Lemma review_loop_decides : forall patterns t,
  Forall (fun p => re_compile p IGNORECASE <> None) patterns ->
  snd (review_loop patterns t)
  = Some (existsb (fun p => match re_search p t IGNORECASE with
                            | Some true => true
                            | _ => false
                            end) patterns).
Proof.
  intros patterns t H. induction H as [|p patterns Hp H IH]; [reflexivity|].
  cbn [review_loop existsb].
  destruct (re_search_total p t IGNORECASE Hp) as [[|] Hb]; rewrite Hb; [reflexivity|].
  destruct (review_loop patterns t) as [searched r]. cbn [snd orb] in *. exact IH.
Qed.

End Redundant.

Lemma existsb_filter_redundant : forall (A : Type) (f g : A -> bool) (l : list A),
  (forall x, In x l -> g x = false -> f x = true ->
     exists y, In y l /\ g y = true /\ f y = true) ->
  existsb f (filter g l) = existsb f l.
Proof.
  intros A f g l H. apply eq_true_iff_eq. rewrite !existsb_exists. split.
  - intros (x & Hx & Hf). apply filter_In in Hx. exists x. tauto.
  - intros (x & Hx & Hf). destruct (g x) eqn:Hg.
    + exists x. split; [apply filter_In; auto | exact Hf].
    + destruct (H x Hx Hg Hf) as (y & Hy & Hgy & Hfy).
      exists y. split; [apply filter_In; auto | exact Hfy].
Qed.

(** X11.  Six of the patterns never decide: [need.*review],
    [anyone.*review], [help.*review], [waiting.*review],
    [blocked.*review] and [ready.*review] are found only where [review],
    which comes before them, is found; the loop run without them
    classifies every text as [is_review_request] does. *)
Theorem review_later_patterns_redundant : forall (db : unicode_db) (text : str),
  snd (review_loop PATTERNS_WITHOUT_REVIEW_LATER (lower text)) = is_review_request text.
Proof.
  intros db text. unfold is_review_request.
  rewrite !review_loop_decides.
  - f_equal. unfold PATTERNS_WITHOUT_REVIEW_LATER.
    apply existsb_filter_redundant. intros p Hin Hg Hf.
    exists (lit "review"). split; [|split].
    + unfold REVIEW_PATTERNS. cbn [In]. do 3 right. left. reflexivity.
    + reflexivity.
    + apply negb_false_iff in Hg.
      destruct (re_search p (lower text) IGNORECASE) as [[|]|] eqn:E; try discriminate Hf.
      rewrite (review_later_search p _ Hin Hg E). reflexivity.
  - exact review_patterns_compile.
  - unfold PATTERNS_WITHOUT_REVIEW_LATER. apply Forall_forall. intros p Hp.
    apply filter_In in Hp. destruct Hp as [Hp _].
    exact (proj1 (Forall_forall _ _) review_patterns_compile p Hp).
Qed.

(** ** Extraction, once more *)

Section ExtractAgain.

Context {db : unicode_db}.

Lemma sre_scan_skip_all : forall c s pos,
  sre_scan c (length s) pos s = sre_scan c 0 (pos + length s) [].
Proof.
  induction s as [|ch s IH]; intro pos; cbn [length].
  - rewrite Nat.add_0_r. reflexivity.
  - cbn [sre_scan]. rewrite IH, Nat.add_succ_r. reflexivity.
Qed.

Lemma github_match_whole : forall u,
  github_pr_url u -> sre_match GITHUB_PR_CODE u = Some (length u).
Proof.
  intros u H. destruct (sre_match GITHUB_PR_CODE u) as [l|] eqn:E.
  - destruct (sre_match_sound _ _ _ E) as [Hle _].
    pose proof (github_longest u [] l) as Hlong. rewrite app_nil_r in Hlong.
    specialize (Hlong E H). f_equal. lia.
  - exfalso. apply (sre_match_complete GITHUB_PR_CODE u) with (post := []).
    + apply github_shape_url. exact H.
    + rewrite app_nil_r. exact E.
Qed.

(** A pull-request URL, alone, is the one match of the scan. *)
Lemma sre_scan_url : forall u,
  github_pr_url u -> sre_scan GITHUB_PR_CODE 0 0 u = [(0, u)].
Proof.
  intros u H. pose proof (github_match_whole u H) as Hm.
  destruct u as [|ch u]; [discriminate Hm|].
  cbn [sre_scan]. rewrite Hm, firstn_all. cbn [length pred].
  rewrite sre_scan_skip_all. reflexivity.
Qed.

Lemma scanned_is_url : forall text i u,
  In (i, u) (sre_scan GITHUB_PR_CODE 0 0 text) -> occurs_at text i u /\ github_pr_url u.
Proof.
  intros text i u H. apply sre_scan_sound in H.
  destruct H as (i' & l & -> & Hi & Hm & ->). cbn [Nat.add].
  destruct (sre_match_occurs _ _ _ _ (proj2 Hi) Hm) as [Ho Hs].
  split; [exact Ho | apply github_shape_url; exact Hs].
Qed.

Lemma extracted_is_scanned : forall search text repo_pattern urls u,
  extract_pr_urls_with search text repo_pattern = Some urls -> In u urls ->
  exists i, In (i, u) (sre_scan GITHUB_PR_CODE 0 0 text).
Proof.
  intros search text repo_pattern urls u H Hin.
  assert (Hu : In u (map snd (sre_scan GITHUB_PR_CODE 0 0 text))).
  { unfold extract_pr_urls_with in H.
    change (re_findall GITHUB_PR_PATTERN text)
      with (Some (map snd (sre_scan GITHUB_PR_CODE 0 0 text))) in H.
    cbv beta iota in H. destruct repo_pattern as [[|c p]|].
    - injection H as <-. exact Hin.
    - apply comprehension_if_filter in H. subst urls.
      apply filter_In in Hin. tauto.
    - injection H as <-. exact Hin. }
  apply in_map_iff in Hu. destruct Hu as ([i u'] & Hs & Hu). cbn [snd] in Hs. subst u'.
  exists i. exact Hu.
Qed.

Lemma sre_scan_nothing : forall c s skip pos,
  (forall j, j <= length s -> sre_match c (skipn j s) = None) ->
  sre_scan c skip pos s = [].
Proof.
  intros c s skip pos H. destruct (sre_scan c skip pos s) as [|[p u] rest] eqn:E;
    [reflexivity|].
  assert (Hin : In (p, u) (sre_scan c skip pos s)) by (rewrite E; left; reflexivity).
  apply sre_scan_sound in Hin. destruct Hin as (i & l & _ & Hi & Hm & _).
  rewrite H in Hm by lia. discriminate Hm.
Qed.

Lemma url_names_host : forall u,
  github_pr_url u -> exists a b, u = a ++ lit "://github.com/" ++ b.
Proof.
  intros u (scheme & owner & repo & number & -> & _).
  exists (lit "http" ++ scheme), (owner ++ [47%N] ++ repo ++ lit "/pull/" ++ number).
  rewrite <- !app_assoc. reflexivity.
Qed.

Lemma no_host_no_match : forall text,
  str_in (lit "://github.com/") text = false ->
  sre_scan GITHUB_PR_CODE 0 0 text = [].
Proof.
  intros text H. apply sre_scan_nothing. intros j Hj.
  destruct (sre_match GITHUB_PR_CODE (skipn j text)) as [l|] eqn:E; [|reflexivity].
  exfalso. destruct (sre_match_occurs _ _ _ _ Hj E) as [(pre & post & Hs & _) Hm].
  apply github_shape_url in Hm. destruct (url_names_host _ Hm) as (a & b & Hu).
  assert (Hin : str_in (lit "://github.com/") text = true).
  { apply str_in_iff. exists (pre ++ a), (b ++ post).
    rewrite Hs, Hu, <- !app_assoc. reflexivity. }
  rewrite H in Hin. discriminate Hin.
Qed.

End ExtractAgain.

(** X12.  Extraction returns pull-request URLs and leaves them alone:
    each string it returns, from any text and with any filter, whatever
    [re.search] answers for the filter, is a text from which extraction
    without a filter returns that string and nothing else. *)
Theorem extract_pr_urls_fixes_urls :
  forall (db : unicode_db) (search search' : str -> str -> option bool)
         (text : str) (repo_pattern : option str) (urls : list str) (u : str),
  extract_pr_urls_with search text repo_pattern = Some urls ->
  In u urls ->
  extract_pr_urls_with search' u None = Some [u].
Proof.
  intros db search search' text repo_pattern urls u H Hin.
  destruct (extracted_is_scanned search text repo_pattern urls u H Hin) as [i Hi].
  apply scanned_is_url in Hi. destruct Hi as [_ Hu].
  unfold extract_pr_urls_with.
  change (re_findall GITHUB_PR_PATTERN u)
    with (Some (map snd (sre_scan GITHUB_PR_CODE 0 0 u))).
  rewrite (sre_scan_url u Hu). reflexivity.
Qed.

Lemma extract_pr_urls_fixes_urls_witness :
  @extract_pr_urls_with basic_db (fun _ _ => None)
    (lit "https://github.com/b/y/pull/2") None
  = Some [lit "https://github.com/b/y/pull/2"].
Proof.
  apply (extract_pr_urls_fixes_urls basic_db
           (fun _ u => Some (starts_with (lit "https") u)) (fun _ _ => None)
           (lit "http://github.com/a/x/pull/1, https://github.com/b/y/pull/2.")
           (Some (lit "^https")) [lit "https://github.com/b/y/pull/2"]).
  - reflexivity.
  - left. reflexivity.
Defined.

(** X13.  A text that nowhere holds [://github.com/] gives no URL, with
    any filter: the filter is not searched for, so that one [re] would
    reject raises nothing. *)
Theorem extract_pr_urls_needs_host :
  forall (db : unicode_db) (search : str -> str -> option bool)
         (text : str) (repo_pattern : option str),
  str_in (lit "://github.com/") text = false ->
  extract_pr_urls_with search text repo_pattern = Some [].
Proof.
  intros db search text repo_pattern H. unfold extract_pr_urls_with.
  change (re_findall GITHUB_PR_PATTERN text)
    with (Some (map snd (sre_scan GITHUB_PR_CODE 0 0 text))).
  rewrite (no_host_no_match text H). destruct repo_pattern as [[|c p]|]; reflexivity.
Qed.

Lemma extract_pr_urls_needs_host_witness :
  @extract_pr_urls_with basic_db (fun _ _ => None)
    (lit "see https://gitlab.com/org/repo/pull/42") (Some (lit "(")) = Some [].
Proof.
  apply (extract_pr_urls_needs_host basic_db). reflexivity.
Defined.

(** ** Timestamps *)

Lemma split_from_head : forall sep head rest cur,
  ~ In sep head ->
  nth_error (split_from sep cur (head ++ sep :: rest)) 0 = Some (rev cur ++ head).
Proof.
  induction head as [|c head IH]; intros rest cur Hn; cbn [app split_from].
  - unfold char_eqb. rewrite N.eqb_refl. cbn [nth_error]. rewrite app_nil_r. reflexivity.
  - unfold char_eqb in *. destruct (N.eqb_spec c sep) as [->|_].
    + exfalso. apply Hn. left. reflexivity.
    + rewrite IH by (intro Hin; apply Hn; right; exact Hin).
      cbn [rev]. rewrite <- app_assoc. reflexivity.
Qed.

(** X14.  Only the seconds of a Slack timestamp are read: when
    [format_timestamp] renders a timestamp [seconds.rest] (it does not
    hand the timestamp back), it renders every timestamp with the same
    seconds to the same text. *)
Theorem format_timestamp_reads_seconds :
  forall (float : Type) (float_of_str : str -> option float)
         (strftime_local : float -> outcome str)
         (seconds rest rest' rendered : str),
  ~ In 46%N seconds ->
  format_timestamp float_of_str strftime_local (seconds ++ 46%N :: rest)
    = Returns rendered ->
  rendered <> seconds ++ 46%N :: rest ->
  format_timestamp float_of_str strftime_local (seconds ++ 46%N :: rest')
    = Returns rendered.
Proof.
  intros float float_of_str strftime_local seconds rest rest' rendered Hdot H Hne.
  pose proof (split_from_head 46%N seconds rest [] Hdot) as E.
  pose proof (split_from_head 46%N seconds rest' [] Hdot) as E'.
  unfold format_timestamp, str_split in *. unfold str, char in *.
  rewrite E in H. rewrite E'. cbn [rev app] in *.
  destruct (float_of_str seconds) as [unix_ts|].
  - destruct (strftime_local unix_ts) as [s| | |]; try discriminate H.
    + exact H.
    + injection H as <-. contradiction Hne. reflexivity.
    + injection H as <-. contradiction Hne. reflexivity.
  - injection H as <-. contradiction Hne. reflexivity.
Qed.

Lemma format_timestamp_reads_seconds_witness :
  format_timestamp
    (fun s => if str_eqb s (lit "1700000000") then Some 1700000000%Z else None)
    (fun _ => Returns (lit "2023-11-14 22:13"))
    (lit "1700000000" ++ 46%N :: lit "999999")
  = Returns (lit "2023-11-14 22:13").
Proof.
  apply (format_timestamp_reads_seconds Z
           (fun s => if str_eqb s (lit "1700000000") then Some 1700000000%Z else None)
           (fun _ => Returns (lit "2023-11-14 22:13"))
           (lit "1700000000") (lit "000100") (lit "999999")).
  - intro H. repeat (destruct H as [H|H]; [discriminate H|]). exact H.
  - reflexivity.
  - discriminate.
Defined.

(** ** How the commands end *)

Section Endings.

Context {db : unicode_db}.

Lemma cmd_list_channels_load_failure : forall w out,
  (load_registry w = (out, Exit 1) -> cmd_list_channels w = (out, Exit 1))
  /\ (forall e, load_registry w = (out, Raise e) -> cmd_list_channels w = (out, Raise e))
  /\ (load_registry w = (out, Untyped) -> cmd_list_channels w = (out, Untyped)).
Proof.
  intros. unfold cmd_list_channels. repeat split; intros; rewrite H; reflexivity.
Qed.


(** The ways [main] ends. *)
Lemma main_endings : forall w args,
  (exists out, main w args = (out, Ok tt))
  \/ (exists out, main w args = (out, Exit 1))
  \/ (exists out e, main w args = (out, Raise e))
  \/ (exists out, main w args = (out, Untyped)).
Proof.
  intros w [days channel repo_pattern| |]; cbn [main].
  - destruct (load_registry_cases w) as [[r Hr] | [[o Hr] | [(o & e & Hr) | [o Hr]]]].
    + rewrite (cmd_search_run w days channel repo_pattern r Hr).
      destruct (select_channels r channel); [|right; left; eexists; reflexivity].
      destruct (cutoff_clock w days);
        [left; eexists | right; right; left; eexists; eexists]; reflexivity.
    + rewrite (proj1 (cmd_search_load_failure w days channel repo_pattern o) Hr).
      right. left. eexists. reflexivity.
    + rewrite (proj1 (proj2 (cmd_search_load_failure w days channel repo_pattern o)) e Hr).
      right. right. left. eexists. eexists. reflexivity.
    + rewrite (proj2 (proj2 (cmd_search_load_failure w days channel repo_pattern o)) Hr).
      right. right. right. eexists. reflexivity.
  - destruct (load_registry_cases w) as [[r Hr] | [[o Hr] | [(o & e & Hr) | [o Hr]]]].
    + rewrite (cmd_list_channels_listing w r Hr). left. eexists. reflexivity.
    + rewrite (proj1 (cmd_list_channels_load_failure w o) Hr).
      right. left. eexists. reflexivity.
    + rewrite (proj1 (proj2 (cmd_list_channels_load_failure w o)) e Hr).
      right. right. left. eexists. eexists. reflexivity.
    + rewrite (proj2 (proj2 (cmd_list_channels_load_failure w o)) Hr).
      right. right. right. eexists. reflexivity.
  - right. left. eexists. reflexivity.
Qed.

End Endings.



(** X16.  Once the command line is parsed, the program ends with exit
    status 0 or 1 and with no other: 0 when the command has run to its
    end, 1 on every failure and when no command is named (after the
    help text). *)
Theorem main_exit_status : forall (db : unicode_db) (w : world) (args : command),
  snd (main w args) <> Untyped ->
  ((exit_status (main w args) = Some 0%Z /\ exists out, main w args = (out, Ok tt))
   \/ (exit_status (main w args) = Some 1%Z /\ forall out, main w args <> (out, Ok tt)))
  /\ (args = CmdNone -> main w args = ([PrintHelp], Exit 1)).
Proof.
  intros db w args Htyped. split; [|intros ->; reflexivity].
  destruct (main_endings w args) as [[o H] | [[o H] | [(o & e & H) | [o H]]]];
    rewrite H in *.
  - left. split; [reflexivity | exists o; reflexivity].
  - right. split; [reflexivity | discriminate].
  - right. split; [reflexivity | discriminate].
  - exfalso. apply Htyped. reflexivity.
Qed.

Lemma main_exit_status_witness :
  ((exit_status (main (db := basic_db) (example_world Malformed) CmdListChannels) = Some 0%Z
    /\ exists out, main (db := basic_db) (example_world Malformed) CmdListChannels = (out, Ok tt))
   \/ (exit_status (main (db := basic_db) (example_world Malformed) CmdListChannels) = Some 1%Z
       /\ forall out,
            main (db := basic_db) (example_world Malformed) CmdListChannels <> (out, Ok tt)))
  /\ (CmdListChannels = CmdNone ->
      main (db := basic_db) (example_world Malformed) CmdListChannels = ([PrintHelp], Exit 1)).
Proof.
  apply (main_exit_status basic_db (example_world Malformed) CmdListChannels). discriminate.
Defined.

(** ** The default pattern *)

(** X17.  With no repo pattern (or the empty one), the object a search
    prints names two defaults that differ: the field [repo_pattern]
    holds the regex [github.com/tatari-tv/.*/pull/], while the
    instruction text asks for URLs matching
    [github.com/tatari-tv/*/pull/*]. *)
Theorem cmd_search_two_defaults :
  forall (db : unicode_db) (w : world) (days : Z)
         (channel_filter repo_pattern : option str) (cfg : dict pyval),
  main w (CmdSearch days channel_filter repo_pattern)
    = ([StdoutJson (PDict cfg)], Ok tt) ->
  truthy repo_pattern = false ->
  dict_get cfg (lit "repo_pattern") = Some (PStr DEFAULT_REPO_PATTERN)
  /\ (exists before after,
        dict_get cfg (lit "instructions")
        = Some (PStr (before ++ lit "1. Contain GitHub PR URLs matching: "
                      ++ DEFAULT_REPO_GLOB ++ NL ++ after)))
  /\ DEFAULT_REPO_GLOB <> DEFAULT_REPO_PATTERN.
Proof.
  intros db w days channel_filter repo_pattern cfg H Hr. cbn [main] in H.
  apply cmd_search_ok in H.
  destruct H as (channels & selected & ts & _ & _ & _ & H). injection H as ->.
  assert (Hd : forall default, or_default repo_pattern default = default).
  { intro default. destruct repo_pattern as [[|c p]|]; [reflexivity | discriminate Hr
                                                       | reflexivity]. }
  split; [|split].
  - rewrite search_config_field by reflexivity. cbn [dict_get].
    rewrite Hd. reflexivity.
  - unfold search_config.
    rewrite (add_channel_lines_text selected _ (instructions_head days repo_pattern))
      by reflexivity.
    unfold instructions_head. rewrite Hd.
    exists (NL ++
       lit "Search these Slack channels for PR review requests from the last " ++
       str_of_int days ++ lit " days." ++ NL ++
       NL ++
       lit "For each channel, use mcp__slack__slack_get_channel_history to get messages," ++ NL ++
       lit "then look for messages that:" ++ NL).
    eexists. do 2 f_equal. repeat rewrite <- app_assoc. reflexivity.
  - discriminate.
Qed.

Lemma cmd_search_two_defaults_witness :
  dict_get
    (search_config 7 (Some []) [(lit "C2", lit "random")] (1756684800%Z, 0%Z))
    (lit "repo_pattern") = Some (PStr DEFAULT_REPO_PATTERN)
  /\ (exists before after,
        dict_get
          (search_config 7 (Some []) [(lit "C2", lit "random")] (1756684800%Z, 0%Z))
          (lit "instructions")
        = Some (PStr (before ++ lit "1. Contain GitHub PR URLs matching: "
                      ++ DEFAULT_REPO_GLOB ++ NL ++ after)))
  /\ DEFAULT_REPO_GLOB <> DEFAULT_REPO_PATTERN.
Proof.
  apply (cmd_search_two_defaults basic_db
           (example_world (Document (PDict [(lit "channels", example_registry)])))
           7 (Some (lit "C2")) (Some [])).
  - reflexivity.
  - reflexivity.
Defined.
